(** * stash_file_watcher: the watch-and-debounce engine of [main.go]

    A shallow embedding of the Go program: the watch-root flag
    ([watcher.Set]), the environment set-up ([init]), the notifier
    ([sendScanRequest]), the recursive enrolment ([watchSubdirs]), the
    per-path debounce loop ([dedupLoop] with its callback [processOp]) and
    the start-up sequence of [main].

    Conventions.
    - Instants and durations are integers counting nanoseconds, as
      [time.Duration] does.
    - What the operating system answers ([os.Stat], [os.Getwd], the event
      source's [Add], the HTTP client) is read from a record of oracles,
      indexed by the instant of the call where the answer may change.
    - Everything observable (log lines, calls of the notifier, requests,
      registrations) is appended to a trace, stamped with the instant and the
      goroutine that produced it.
    - [log.Fatal] ends the process: a computation yields either a running
      state or an exited one.
    - Goroutines are interleaved at the grain of whole steps: the handling
      of one received event, and the whole function of a timer that fires,
      each run to their end; the mutex of [dedupLoop] is therefore not
      represented. A timer fires at the instant it is due.
    - The channels of the watcher are closed only by [wat.Close()], which
      [main] defers to its return: the messages of a run are those received
      before that. *)

From Stdlib Require Import ZArith Lia.
From stdpp Require Import gmap strings list sorting.

Local Open Scope string_scope.
Local Open Scope list_scope.

(** ** Results of fallible calls *)

Inductive res (A : Type) : Type :=
| Ok (a : A)
| Err (e : string).
Arguments Ok {A} a.
Arguments Err {A} e.

(** ** Time ([time.Duration], nanoseconds) *)

Definition Nanosecond : Z := 1.
Definition Microsecond : Z := 1000 * Nanosecond.
Definition Millisecond : Z := 1000 * Microsecond.
Definition Second : Z := 1000 * Millisecond.
Definition Minute : Z := 60 * Second.

Definition MaxInt64 : Z := 2 ^ 63 - 1.
Definition MinInt64 : Z := - 2 ^ 63.

(** Two's-complement wrap-around of a 64-bit signed product or sum. *)
Definition wrap64 (z : Z) : Z := (z + 2 ^ 63) mod 2 ^ 64 - 2 ^ 63.

(** [waitFor = 100 * time.Millisecond], the quiet window of [dedupLoop]. *)
Definition waitFor : Z := 100 * Millisecond.

(** ** fsnotify events *)

Definition Create : Z := 1.
Definition Write : Z := 2.
Definition Remove : Z := 4.
Definition Rename : Z := 8.
Definition Chmod : Z := 16.

Record Event : Type := mkEvent { Name : string; Op : Z }.

(** [Event.Has]: the operation mask contains the given bit. *)
Definition Has (e : Event) (h : Z) : bool := negb (Z.land (Op e) h =? 0)%Z.

(** ** Configuration read by [init] *)

Record ScanOptions : Type := mkScanOptions {
  scanRescan : bool;
  scanGenerateClipPreviews : bool;
  scanGenerateCovers : bool;
  scanGenerateImagePreviews : bool;
  scanGeneratePhashes : bool;
  scanGeneratePreviews : bool;
  scanGenerateSprites : bool;
  scanGenerateThumbnails : bool
}.

Record Config : Type := mkConfig {
  debugEnv : bool;
  verboseEnv : bool;
  doAuthEnv : bool;
  endpointEnv : string;
  scheduledScanIntervalMinsEnv : string;
  (** [scanBody] is the rendering of these options as a GraphQL mutation. *)
  scanBody : ScanOptions
}.

(** The process environment: [os.LookupEnv] is the map's lookup. *)
Definition LookupEnv (environ : gmap string string) (k : string) : option string :=
  environ !! k.

Definition isSet (environ : gmap string string) (k : string) : bool :=
  bool_decide (is_Some (LookupEnv environ k)).

(** [init]: [Err] stands for [log.Fatal("Stash API endpoint is unset")]. The
    two debug lines that print the request body, and the making of the HTTP
    client, are left out. *)
Definition init (environ : gmap string string) : res Config :=
  let opts := {|
    scanRescan := isSet environ "STASH_WATCH_FORCE_RESCAN";
    scanGenerateClipPreviews := isSet environ "STASH_WATCH_GEN_CLIP_PREV";
    scanGenerateCovers := isSet environ "STASH_WATCH_GEN_COVER";
    scanGenerateImagePreviews := isSet environ "STASH_WATCH_GEN_IMAGE_PREV";
    scanGeneratePhashes := isSet environ "STASH_WATCH_GEN_PHASH";
    scanGeneratePreviews := isSet environ "STASH_WATCH_GEN_PREV";
    scanGenerateSprites := isSet environ "STASH_WATCH_GEN_SPRITE";
    scanGenerateThumbnails := isSet environ "STASH_WATCH_GEN_THUMB" |} in
  match LookupEnv environ "STASH_API_ENDPOINT" with
  | None => Err "Stash API endpoint is unset"
  | Some endpoint =>
      let interval :=
        match LookupEnv environ "STASH_SCAN_INTERVAL_MINS" with
        | Some v => v
        | None => "30"
        end in
      Ok {| debugEnv := isSet environ "STASH_WATCH_DEBUG";
            verboseEnv := isSet environ "STASH_WATCH_VERBOSE";
            doAuthEnv := isSet environ "STASH_WATCH_DO_AUTH";
            endpointEnv := endpoint;
            scheduledScanIntervalMinsEnv := interval;
            scanBody := opts |}
  end.

(** ** The outside world *)

Record World : Type := mkWorld {
  (** [os.Getwd], which [filepath.Abs] consults for a relative path. *)
  os_Getwd : res string;
  (** [os.Stat]: an error, or whether the path is a directory. *)
  os_Stat : Z -> string -> res bool;
  (** [fsnotify.NewWatcher]. *)
  fsnotify_NewWatcher : Z -> res unit;
  (** The [Add] method of the [fsnotify.Watcher]. *)
  wat_Add : Z -> string -> res unit;
  (** [http.NewRequest] on the endpoint: its error, if any. *)
  http_NewRequest : string -> res unit;
  (** [os.LookupEnv("STASH_API_KEY")]. *)
  stashAPIKey : option string;
  (** [client.Do]: its error, if any. *)
  client_Do : Z -> res unit
}.

(** ** Observable effects *)

Inductive Level : Type := LvVerbose | LvDebug | LvError | LvInfo.

(** What a [go] statement of [main] starts. *)
Inductive Goroutine : Type :=
| GoDedupLoop (root : string)
| GoWatchSubdirs (root : string)
| GoTicker (period : Z).

Inductive Effect : Type :=
| Log (lv : Level) (args : list string)
| LogFatal (args : list string)
| FlagError (err : string)
| CallScan
| HttpPost (endpoint : string) (apiKey : option string) (body : ScanOptions)
| WatchAdd (path : string)
| Spawn (g : Goroutine).

(** The goroutine an effect comes from. *)
Inductive Origin : Type :=
| FromMain
| FromLoop
| FromTimer (name : string)
| FromEnum
| FromTicker.

Record Emit : Type := mkEmit { at_time : Z; who : Origin; what : Effect }.

Global Instance Level_eq_dec : EqDecision Level.
Proof. solve_decision. Defined.
Global Instance ScanOptions_eq_dec : EqDecision ScanOptions.
Proof. solve_decision. Defined.
Global Instance Goroutine_eq_dec : EqDecision Goroutine.
Proof. solve_decision. Defined.
Global Instance Effect_eq_dec : EqDecision Effect.
Proof. solve_decision. Defined.
Global Instance Origin_eq_dec : EqDecision Origin.
Proof. solve_decision. Defined.
Global Instance Event_eq_dec : EqDecision Event.
Proof. solve_decision. Defined.

(** ** Logging helpers *)

Definition printVerbose (cfg : Config) (s : list string) : list Effect :=
  if verboseEnv cfg then [Log LvVerbose s] else [].

Definition printDebug (cfg : Config) (s : list string) : list Effect :=
  if debugEnv cfg then [Log LvDebug s] else [].

Definition printError (s : list string) : list Effect := [Log LvError s].

Definition printInfo (s : list string) : list Effect := [Log LvInfo s].

(** ** The notifier *)

Definition sendScanRequest (cfg : Config) (w : World) (now : Z)
    (endpoint : string) (useAuthentication : bool) : list Effect :=
  let do (key : option string) :=
    HttpPost endpoint key (scanBody cfg) ::
    match client_Do w now with
    | Err e => printError ["error making http request"; e]
    | Ok _ => []
    end in
  CallScan ::
  match http_NewRequest w endpoint with
  | Err e => printError ["could not create request"; e]
  | Ok _ =>
      if useAuthentication then
        match stashAPIKey w with
        | None => printError ["authentication requested but API key is unset"]
        | Some k => do (Some k)
        end
      else do None
  end.

(** ** Paths ([strings] and [path/filepath] on a Unix system) *)

Definition Separator : Ascii.ascii := Ascii.ascii_of_nat 47.

(** [strings.HasPrefix]. *)
Definition HasPrefix (s pre : string) : bool := String.prefix pre s.

Definition IsAbs (path : string) : bool := HasPrefix path "/".

(** The elements of a path between separators: [strings.Split(s, "/")]. *)
Fixpoint split_sep (s : string) : list string :=
  match s with
  | EmptyString => [EmptyString]
  | String c s' =>
      if Ascii.eqb c Separator then EmptyString :: split_sep s'
      else match split_sep s' with
           | x :: xs => String c x :: xs
           | [] => [String c EmptyString]
           end
  end.

(** [strings.Join(xs, "/")]. *)
Fixpoint join_sep (xs : list string) : string :=
  match xs with
  | [] => ""
  | x :: xs' =>
      match xs' with
      | [] => x
      | _ :: _ => x +:+ String Separator (join_sep xs')
      end
  end.

(** One element read by [filepath.Clean]; [out] holds the elements written so
    far, the last one first. An empty element and [.] are skipped; [..]
    removes the last element written, and where nothing can be removed it is
    dropped on a rooted path and kept on a relative one. *)
Definition clean_elem (rooted : bool) (out : list string) (c : string) : list string :=
  if decide (c = "") then out
  else if decide (c = ".") then out
  else if decide (c = "..") then
    match out with
    | top :: rest => if decide (top = "..") then c :: out else rest
    | [] => if rooted then [] else [c]
    end
  else c :: out.

(** [filepath.Clean]: the shortest path naming the same place by lexical
    processing alone. *)
Definition Clean (path : string) : string :=
  if decide (path = "") then "."
  else
    let rooted := IsAbs path in
    let out := fold_left (clean_elem rooted) (split_sep path) [] in
    let body := join_sep (rev out) in
    if rooted then String Separator body
    else if decide (body = "") then "." else body.

(** [filepath.Join] of two elements. *)
Definition Join (a b : string) : string :=
  if decide (a = "") then (if decide (b = "") then "" else Clean b)
  else Clean (a +:+ String Separator b).

(** [filepath.Abs]. *)
Definition Abs (w : World) (path : string) : res string :=
  if IsAbs path then Ok (Clean path)
  else match os_Getwd w with
       | Err e => Err e
       | Ok wd => Ok (Join wd path)
       end.

(** ** The watch roots: [watcher.Set] *)

(** The test of the loop in [Set], on the cleaned [value] and the cleaned [p]:
    [x] has [y] as a prefix, and the match is exact or ends at a separator. *)
Definition under (x y : string) : bool :=
  HasPrefix x y &&
  (bool_decide (String.length x = String.length y)
   || bool_decide (String.get (String.length y) x = Some Separator)).

Definition covers (p value : string) : bool := under (Clean value) (Clean p).

Definition watcher_Set (w : World) (now : Z) (ws : list string) (value : string)
    : res (list string) :=
  match os_Stat w now value with
  | Err e => Err e
  | Ok isDir =>
      if negb isDir then Err "watcher path must be a directory"
      else if existsb (fun p => covers p value) ws then Ok ws
      else match Abs w value with
           | Err e => Err e
           | Ok abs => Ok (ws ++ [abs])
           end
  end.

(** [flag.Parse] over the [--watcher] values in the order given: the first
    error of [Set] ends the process (exit status 2). *)
Fixpoint flag_Parse (w : World) (now : Z) (values : list string) (ws : list string)
    : res (list string) :=
  match values with
  | [] => Ok ws
  | v :: values' =>
      match watcher_Set w now ws v with
      | Err e => Err e
      | Ok ws' => flag_Parse w now values' ws'
      end
  end.

(** ** The debounce loop: [dedupLoop] *)

(** A [*time.Timer] made by [time.AfterFunc(d, func() { processOp(event) })]:
    the instant it is due to fire ([None] once stopped) and the event its
    closure captured. *)
Record Timer : Type := mkTimer { when : option Z; f_event : Event }.

(** What one watcher and its loop share: the [timers] map of [dedupLoop], the
    directories registered with the watcher, and the trace. *)
Record State : Type := mkState {
  timers : gmap string Timer;
  watches : gset string;
  trace : list Emit
}.

(** The process: running, or ended by [log.Fatal] ([os.Exit(1)]). *)
Inductive Proc : Type :=
| Running (s : State)
| Exited (code : Z) (s : State).

Definition emit (now : Z) (o : Origin) (effs : list Effect) (s : State) : State :=
  {| timers := timers s;
     watches := watches s;
     trace := trace s ++ map (mkEmit now o) effs |}.

Definition set_timers (m : gmap string Timer) (s : State) : State :=
  {| timers := m; watches := watches s; trace := trace s |}.

Definition add_watch (path : string) (s : State) : State :=
  {| timers := timers s; watches := {[path]} ∪ watches s; trace := trace s |}.

(** [time.AfterFunc(math.MaxInt64, f)] followed by [t.Stop()]. *)
Definition timer_new_stopped (event : Event) : Timer :=
  {| when := None; f_event := event |}.

(** [t.Reset(d)] at instant [now]. *)
Definition timer_Reset (now d : Z) (t : Timer) : Timer :=
  {| when := Some (now + d)%Z; f_event := f_event t |}.

Section Loop.

Variable cfg : Config.
Variable w : World.

(** The inner function of [processOp], run at instant [now] by the timer of
    [event]. *)
Definition processOp_inner (now : Z) (event : Event) (s : State) : Proc :=
  let me := FromTimer (Name event) in
  if Has event Create then
    let s := emit now me (printVerbose cfg ["created path item:"; Name event]) s in
    match Abs w (Name event) with
    | Err e =>
        Running (emit now me (printError ["error: could not get absolute path"; e]) s)
    | Ok abs =>
        match os_Stat w now abs with
        | Err e =>
            Running (emit now me (printError ["error: could not stat file"; e]) s)
        | Ok isDir =>
            if negb isDir then
              Running (emit now me
                         (printInfo ["Files changed, sending update:"; abs]
                          ++ sendScanRequest cfg w now (endpointEnv cfg) (doAuthEnv cfg)) s)
            else
              match wat_Add w now abs with
              | Err e => Exited 1 (emit now me [LogFatal [e]] s)
              | Ok _ =>
                  Running (emit now me
                             (WatchAdd abs ::
                              printInfo ["New directory detected, now watching directory: "; abs])
                             (add_watch abs s))
              end
        end
    end
  else
    Running (emit now me
               (printInfo ["Files changed, sending update:"; Name event]
                ++ sendScanRequest cfg w now (endpointEnv cfg) (doAuthEnv cfg)) s).

(** [processOp]: the inner function, then [delete(timers, event.Name)]. *)
Definition processOp (now : Z) (event : Event) (s : State) : Proc :=
  match processOp_inner now event s with
  | Running s' => Running (set_timers (delete (Name event) (timers s')) s')
  | Exited c s' => Exited c s'
  end.

(** The [case event := <-wat.Events] branch of [dedupLoop], for an event
    received at instant [now]. *)
Definition on_event (now : Z) (event : Event) (s : State) : State :=
  if negb (Has event Write) && negb (Has event Remove) && negb (Has event Create)
  then s
  else
    let s := emit now FromLoop (printDebug cfg ["EVENT"; Name event]) s in
    let '(t, s) :=
      match timers s !! Name event with
      | Some t => (t, s)
      | None =>
          let t := timer_new_stopped event in
          (t, set_timers (<[Name event := t]> (timers s)) s)
      end in
    set_timers (<[Name event := timer_Reset now waitFor t]> (timers s)) s.

(** The [case err := <-wat.Errors] branch. *)
Definition on_error (now : Z) (err : string) (s : State) : State :=
  emit now FromLoop (printError [err]) s.

(** What the loop receives. *)
Inductive Msg : Type :=
| MEvent (event : Event)
| MError (err : string).

Definition on_msg (now : Z) (m : Msg) (s : State) : State :=
  match m with
  | MEvent event => on_event now event s
  | MError err => on_error now err s
  end.

(** *** The timers of the runtime

    A timer that is due runs its function at the instant it is due; the
    function runs to its end before anything else happens. Timers due at or
    before [now] fire in the order of their instants. *)

Definition is_due (now : Z) (kt : string * Timer) : bool :=
  match when kt.2 with
  | Some d => bool_decide (d ≤ now)%Z
  | None => false
  end.

Definition fires_before (a b : string * Timer) : Prop :=
  match when a.2, when b.2 with
  | Some x, Some y => (x ≤ y)%Z
  | None, _ => True
  | Some _, None => False
  end.

Global Instance fires_before_dec a b : Decision (fires_before a b).
Proof. unfold fires_before. destruct (when a.2), (when b.2); apply _. Defined.

Definition due_timers (now : Z) (s : State) : list (string * Timer) :=
  merge_sort fires_before (filter (fun kt => is_due now kt = true) (map_to_list (timers s))).

Definition fire (kt : string * Timer) (p : Proc) : Proc :=
  match p with
  | Exited c s => Exited c s
  | Running s =>
      match when kt.2 with
      | Some d => processOp d (f_event kt.2) s
      | None => Running s
      end
  end.

Definition advance (now : Z) (p : Proc) : Proc :=
  match p with
  | Exited c s => Exited c s
  | Running s => fold_left (fun p kt => fire kt p) (due_timers now s) p
  end.

Definition deliver (now : Z) (m : Msg) (p : Proc) : Proc :=
  match advance now p with
  | Running s => Running (on_msg now m s)
  | Exited c s => Exited c s
  end.

(** The loop over the messages received, each with the instant it is
    received at, and then the passing of time up to [horizon]. *)
Fixpoint dedupLoop (inbox : list (Z * Msg)) (p : Proc) : Proc :=
  match inbox with
  | [] => p
  | (now, m) :: inbox' => dedupLoop inbox' (deliver now m p)
  end.

Definition run (inbox : list (Z * Msg)) (horizon : Z) (p : Proc) : Proc :=
  advance horizon (dedupLoop inbox p).

End Loop.

(** * Enumeration of the subdirectories: [watchSubdirs] *)

#[local] Set Warnings "-register-all".

(** A directory entry as [os.ReadDir] shows it: a file, or a directory with
    the error of listing it (if any) and its entries. *)
Inductive Node : Type :=
| NFile
| NDir (err : option string) (entries : list (string * Node)).

(** How a call of [watchSubdirs] ends: it returns its error value, or
    [log.Fatal] has ended the process. *)
Inductive Enum : Type :=
| EnumReturned (err : option string) (s : State)
| EnumFatal (s : State).

Section Enumeration.

Variable cfg : Config.
Variable w : World.
Variable now : Z.

Fixpoint watchSubdirs (dir : string) (n : Node) (s : State) {struct n} : Enum :=
  match n with
  | NFile => EnumReturned (Some "not a directory") s
  | NDir (Some e) _ => EnumReturned (Some e) s
  | NDir None dirContents =>
      (fix loop (ps : list (string * Node)) (s : State) {struct ps} : Enum :=
         match ps with
         | [] => EnumReturned None s
         | (name, child) :: ps' =>
             match child with
             | NFile => loop ps' s
             | NDir _ _ =>
                 let abs := Join dir name in
                 match wat_Add w now abs with
                 | Err e => EnumFatal (emit now FromEnum [LogFatal [e]] s)
                 | Ok _ =>
                     let s1 :=
                       emit now FromEnum
                         (WatchAdd abs :: printVerbose cfg ["Now watching"; abs])
                         (add_watch abs s) in
                     (* recurse; the error returned is not looked at *)
                     match watchSubdirs abs child s1 with
                     | EnumReturned _ s2 => loop ps' s2
                     | EnumFatal s2 => EnumFatal s2
                     end
                 end
             end
         end) dirContents s
  end.

(** The loop of [watchSubdirs] over the entries of [dir]. *)
Fixpoint watch_entries (dir : string) (ps : list (string * Node)) (s : State) : Enum :=
  match ps with
  | [] => EnumReturned None s
  | (name, child) :: ps' =>
      match child with
      | NFile => watch_entries dir ps' s
      | NDir _ _ =>
          let abs := Join dir name in
          match wat_Add w now abs with
          | Err e => EnumFatal (emit now FromEnum [LogFatal [e]] s)
          | Ok _ =>
              let s1 :=
                emit now FromEnum
                  (WatchAdd abs :: printVerbose cfg ["Now watching"; abs])
                  (add_watch abs s) in
              match watchSubdirs abs child s1 with
              | EnumReturned _ s2 => watch_entries dir ps' s2
              | EnumFatal s2 => EnumFatal s2
              end
          end
      end
  end.

(** [go watchSubdirs(w, wat)] in [main]: a goroutine's return value is
    discarded. *)
Definition go_watchSubdirs (dir : string) (n : Node) (s : State) : Proc :=
  match watchSubdirs dir n s with
  | EnumReturned _ s' => Running s'
  | EnumFatal s' => Exited 1 s'
  end.

End Enumeration.

(** * Start-up: [main] *)

(** [strconv.Atoi]: an optional sign and decimal digits, within the range
    of a 64-bit [int]. *)
Definition digit_of (c : Ascii.ascii) : option Z :=
  let n := Z.of_nat (Ascii.nat_of_ascii c) in
  if (48 <=? n)%Z && (n <=? 57)%Z then Some (n - 48)%Z else None.

Fixpoint parse_digits (s : string) (acc : Z) : option Z :=
  match s with
  | EmptyString => Some acc
  | String c s' =>
      match digit_of c with
      | Some d => parse_digits s' (10 * acc + d)%Z
      | None => None
      end
  end.

Definition Atoi (s : string) : res Z :=
  let plus := Ascii.ascii_of_nat 43 in
  let minus := Ascii.ascii_of_nat 45 in
  let '(neg, digits) :=
    match s with
    | String c s' =>
        if Ascii.eqb c minus then (true, s')
        else if Ascii.eqb c plus then (false, s')
        else (false, s)
    | EmptyString => (false, s)
    end in
  match digits with
  | EmptyString => Err "invalid syntax"
  | String _ _ =>
      match parse_digits digits 0 with
      | None => Err "invalid syntax"
      | Some n =>
          let v := if neg then (- n)%Z else n in
          if (MinInt64 <=? v)%Z && (v <=? MaxInt64)%Z then Ok v
          else Err "value out of range"
      end
  end.

(** The command line: the values of the [--watcher] flags, in order, and the
    arguments left over ([flag.Args()]). *)
Record CmdLine : Type := mkCmdLine {
  watcher_values : list string;
  positional : list string
}.

(** How start-up ends: the process exits, [time.NewTicker] panics on an
    interval that is not positive, or the process is up, waiting for the
    interrupt signal. *)
Inductive Startup : Type :=
| StartupExit (code : Z) (effs : list Effect)
| StartupPanic (effs : list Effect)
| Serving (roots : list string) (period : Z) (effs : list Effect).

(** [time.Duration(d) * time.Minute], the period handed to [time.NewTicker]. *)
Definition ticker_period (cfg : Config) : res Z :=
  match Atoi (scheduledScanIntervalMinsEnv cfg) with
  | Err e => Err e
  | Ok d => Ok (wrap64 (d * Minute))
  end.

Section Main.

Variable w : World.
Variable now : Z.
Variable cfg : Config.

(** The loop of [main] over the roots: the effects, and whether [log.Fatal]
    was reached. *)
Fixpoint start_watchers (roots : list string) : list Effect * bool :=
  match roots with
  | [] => ([], false)
  | root :: roots' =>
      match fsnotify_NewWatcher w now with
      | Err e => ([LogFatal [e]], true)
      | Ok _ =>
          match wat_Add w now root with
          | Err e => ([Spawn (GoDedupLoop root); LogFatal [e]], true)
          | Ok _ =>
              let '(effs, fatal) := start_watchers roots' in
              (Spawn (GoDedupLoop root) :: WatchAdd root ::
               printInfo ["Initial watcher started at:"; root]
               ++ Spawn (GoWatchSubdirs root) :: effs, fatal)
          end
      end
  end.

Definition main (cl : CmdLine) : Startup :=
  match flag_Parse w now (watcher_values cl) [] with
  | Err e => StartupExit 2 [FlagError e]
  | Ok watcherFlag =>
      if bool_decide (0 < length (positional cl))%nat then
        StartupExit 1 [LogFatal ("Unknown arguments: " :: positional cl)]
      else if bool_decide (length watcherFlag < 1)%nat then
        StartupExit 1 [LogFatal ["Error: no watcher arguments provided. ";
                                 "Use '--watcher <PATH>' to start watching directories."]]
      else
        match start_watchers watcherFlag with
        | (effs, true) => StartupExit 1 effs
        | (effs, false) =>
            match ticker_period cfg with
            | Err e =>
                StartupExit 1 (effs ++ [LogFatal ["Error converting string to int:"; e]])
            | Ok period =>
                if (period <=? 0)%Z then StartupPanic effs
                else Serving watcherFlag period (effs ++ [Spawn (GoTicker period)])
            end
        end
  end.

End Main.

(** The program: [init], then [main]. *)
Definition program (environ : gmap string string) (w : World) (now : Z) (cl : CmdLine)
    : Startup :=
  match init environ with
  | Err e => StartupExit 1 [LogFatal [e]]
  | Ok cfg => main w now cfg cl
  end.

(** The goroutines started before start-up ended. *)
Definition spawned (st : Startup) : list Goroutine :=
  let effs := match st with
              | StartupExit _ effs => effs
              | StartupPanic effs => effs
              | Serving _ _ effs => effs
              end in
  omap (fun e => match e with Spawn g => Some g | _ => None end) effs.

(** ** The scheduled trigger *)





(** * Notions used in the statements *)

(** The state [dedupLoop] starts from: [timers = make(map[string]*time.Timer)]. *)
Definition fresh : State := {| timers := ∅; watches := ∅; trace := [] |}.

(** The instants at which the notifier was called by the timer of [name]. *)
(** The instants of the calls of the notifier in a trace. *)
Definition scan_calls (tr : list Emit) : list Z :=
  at_time <$> filter (fun e => what e = CallScan) tr.

Definition state_of (p : Proc) : State :=
  match p with Running s => s | Exited _ s => s end.

Definition is_running (p : Proc) : bool :=
  match p with Running _ => true | Exited _ _ => false end.

(** The part of a trace that the timer of [name] produced. *)
Definition trace_of (name : string) (tr : list Emit) : list Emit :=
  filter (fun e => who e = FromTimer name) tr.

(** The instants at which the timer of [name] called the notifier. *)
Definition notified_at (name : string) (tr : list Emit) : list Z :=
  scan_calls (trace_of name tr).

(** What [processOp] appends to the trace when it runs at [now] for [event]. *)
Definition processOp_emits (cfg : Config) (w : World) (now : Z) (event : Event)
    : list Emit :=
  trace (state_of (processOp cfg w now event fresh)).

(** An event the loop acts upon: it passes the filter at the head of the
    [case event] branch. *)
Definition qualifying (e : Event) : bool :=
  Has e Write || Has e Remove || Has e Create.

(** A Write or Remove event in the sense of [processOp]: not a Create. *)
Definition write_or_remove (e : Event) : bool :=
  (Has e Write || Has e Remove) && negb (Has e Create).

(** Every timer in the map is stored under the name of the event it
    captured. *)
Definition keyed (s : State) : Prop :=
  ∀ k t, timers s !! k = Some t → Name (f_event t) = k.

(** The event source never refuses a registration (a refusal ends the
    process through [log.Fatal]). *)
Definition always_adds (w : World) : Prop :=
  ∀ t path, wat_Add w t path = Ok tt.

(** The entry of the path after a qualifying event: the captured event is the
    one of the entry already there, or this event; the timer is due one quiet
    window from now. *)
Definition entry_after (now : Z) (e : Event) (s : State) : Timer :=
  {| when := Some (now + waitFor)%Z;
     f_event := match timers s !! Name e with
                | Some t => f_event t
                | None => e
                end |}.

(** A message that is no event on [p], or none that passes the filter, leaves
    the entry of [p] alone. *)
Definition event_on (p : string) (m : Msg) : option Event :=
  match m with
  | MEvent e => if decide (Name e = p) then Some e else None
  | MError _ => None
  end.

(** The events on [p] among the messages received, with their instants. *)
Definition events_on (p : string) (inbox : list (Z * Msg)) : list (Z * Event) :=
  omap (fun tm => (fun e => (tm.1, e)) <$> event_on p tm.2) inbox.


(** The last instant of a list, [t0] for the empty list. *)
Definition last_time (t0 : Z) (ts : list Z) : Z := default t0 (last ts).

(** No root lies under a root retained before it. *)
Definition earlier_free (ws : list string) : Prop :=
  ∀ i j p q, (i < j)%nat → ws !! i = Some p → ws !! j = Some q → under q p = false.

(** A root that does not exist or is not a directory. *)
Definition invalid_root (w : World) (now : Z) (v : string) : Prop :=
  match os_Stat w now v with
  | Err _ => True
  | Ok isDir => isDir = false
  end.

(** The tree with every directory that cannot be listed taken for an empty
    one. *)
Fixpoint prune (n : Node) : Node :=
  match n with
  | NFile => NFile
  | NDir (Some _) _ => NDir None []
  | NDir None ps => NDir None (map (fun p => (p.1, prune p.2)) ps)
  end.

(** The same below the directory itself. *)
Definition prune_below (n : Node) : Node :=
  match n with
  | NDir None ps => NDir None (map (fun p => (p.1, prune p.2)) ps)
  | _ => n
  end.

Definition unlistable (n : Node) : bool :=
  match n with
  | NDir None _ => false
  | _ => true
  end.

(** A call of [watchSubdirs] as its caller sees it, the error value dropped. *)
Definition settle (e : Enum) : Proc :=
  match e with
  | EnumReturned _ s => Running s
  | EnumFatal s => Exited 1 s
  end.

(** ** Notions used in the proofs *)

Definition fire_all (cfg : Config) (w : World) (l : list (string * Timer)) (p : Proc)
    : Proc :=
  fold_left (fun q kt => fire cfg w kt q) l p.

(** What the timer of [p] appends when the timers of [l] fire. *)
Definition emits_in (cfg : Config) (w : World) (p : string) (l : list (string * Timer))
    : list Emit :=
  match list_find (fun kt => kt.1 = p) l with
  | Some (_, (_, t)) =>
      match when t with
      | Some d => processOp_emits cfg w d (f_event t)
      | None => []
      end
  | None => []
  end.

(** What the timer of [p] appends when time passes to [now]. *)
Definition due_emits (cfg : Config) (w : World) (p : string) (now : Z) (s : State)
    : list Emit :=
  match timers s !! p with
  | Some t =>
      match when t with
      | Some d => if bool_decide (d ≤ now)%Z
                  then processOp_emits cfg w d (f_event t) else []
      | None => []
      end
  | None => []
  end.

Definition all_clean (ws : list string) : Prop :=
  Forall (fun p => Clean p = p) ws.

Fixpoint has_sep (s : string) : bool :=
  match s with
  | EmptyString => false
  | String c s' => Ascii.eqb c Separator || has_sep s'
  end.

(** A name: an element that [Clean] keeps as it is. *)
Definition is_name (c : string) : Prop :=
  c ≠ "" ∧ c ≠ "." ∧ c ≠ ".." ∧ has_sep c = false.

(** The elements written by [Clean], last one first: names, on top of the
    [..] elements a relative path starts with. *)
Definition cleaned_stack (rooted : bool) (out : list string) : Prop :=
  ∃ names dots, out = names ++ dots
    ∧ Forall is_name names ∧ Forall (fun c => c = "..") dots
    ∧ (rooted = true → dots = []).

(** ** A concrete installation, for the examples *)

Definition plain_cfg : Config :=
  {| debugEnv := false; verboseEnv := false; doAuthEnv := false;
     endpointEnv := "http://stash:9999/graphql";
     scheduledScanIntervalMinsEnv := "30";
     scanBody := mkScanOptions false false false false false false false false |}.

(** [/data] and [/data/sub] are directories, [/data/x.mp4] is a file, nothing
    else exists; every registration and every request succeeds. *)
Definition data_world : World :=
  {| os_Getwd := Ok "/";
     os_Stat := fun _ path =>
       if decide (Clean path = "/data") then Ok true
       else if decide (Clean path = "/data/sub") then Ok true
       else if decide (Clean path = "/data/x.mp4") then Ok false
       else Err "no such file or directory";
     fsnotify_NewWatcher := fun _ => Ok tt;
     wat_Add := fun _ _ => Ok tt;
     http_NewRequest := fun _ => Ok tt;
     stashAPIKey := None;
     client_Do := fun _ => Ok tt |}.

(** Five writes to [/data/x.mp4], 10ms apart, with an event on another path
    and an error of the event source in between. *)
Definition five_writes : list (Z * Msg) :=
  [ (0, MEvent (mkEvent "/data/x.mp4" Write));
    (10 * Millisecond, MEvent (mkEvent "/data/x.mp4" Write));
    (15 * Millisecond, MEvent (mkEvent "/data/gone" Create));
    (20 * Millisecond, MEvent (mkEvent "/data/x.mp4" Write));
    (25 * Millisecond, MError "queue overflow");
    (30 * Millisecond, MEvent (mkEvent "/data/x.mp4" Write));
    (40 * Millisecond, MEvent (mkEvent "/data/x.mp4" Remove)) ]%Z.


(** The installation with an interval that is no integer. *)
Definition bad_interval_cfg : Config :=
  {| debugEnv := false; verboseEnv := false; doAuthEnv := false;
     endpointEnv := "http://stash:9999/graphql";
     scheduledScanIntervalMinsEnv := "half an hour";
     scanBody := mkScanOptions false false false false false false false false |}.

(** * Further notions *)

(** ** One path on its own

    What the entry of one path and its timer do, told without the table:
    [pending] is the entry of the path, if it has one. *)

(** Time passes to [now]: the timer fires if it is due. *)
Definition flush (cfg : Config) (w : World) (pending : option Timer) (now : Z)
    : list Emit * option Timer :=
  match pending with
  | Some tm =>
      match when tm with
      | Some d =>
          if bool_decide (d ≤ now)%Z
          then (processOp_emits cfg w d (f_event tm), None)
          else ([], pending)
      | None => ([], pending)
      end
  | None => ([], None)
  end.

(** An event on the path is received at [now]. *)
Definition capture (now : Z) (e : Event) (pending : option Timer) : option Timer :=
  if qualifying e
  then Some {| when := Some (now + waitFor)%Z;
               f_event := match pending with
                          | Some tm => f_event tm
                          | None => e
                          end |}
  else pending.

(** The events on the path, in order, and then the passing of time up to
    [horizon]: what the timer emits, and the entry left. *)
Fixpoint debounce_path (cfg : Config) (w : World) (pending : option Timer)
    (evs : list (Z * Event)) (horizon : Z) : list Emit * option Timer :=
  match evs with
  | [] => flush cfg w pending horizon
  | (t, e) :: evs' =>
      let fl := flush cfg w pending t in
      let r := debounce_path cfg w (capture t e fl.2) evs' horizon in
      (fl.1 ++ r.1, r.2)
  end.

(** The messages that are events on [p]. *)
Definition only_on (p : string) (inbox : list (Z * Msg)) : list (Z * Msg) :=
  filter (fun tm => is_Some (event_on p tm.2)) inbox.

(** Each instant is more than one quiet window after the one before it. *)
Fixpoint spaced_out (prev : Z) (ts : list Z) : Prop :=
  match ts with
  | [] => True
  | t :: ts' => (prev + waitFor < t)%Z ∧ spaced_out t ts'
  end.

(** No event of the inbox passes the filter of the loop. *)
Definition nothing_qualifies (inbox : list (Z * Msg)) : Prop :=
  Forall (fun tm => match tm.2 with
                    | MEvent e => qualifying e = false
                    | MError _ => True
                    end) inbox.

(** An instant at or before which the entry is not due. *)
Definition before_due (pd : option Timer) (t : Z) : Z :=
  match pd with
  | Some tm => match when tm with Some d => Z.min t (d - 1) | None => t end
  | None => t
  end.

Definition pending_count (pd : option Timer) : nat :=
  match pd with Some _ => 1 | None => 0 end.

(** ** The subdirectories of a tree *)

(** The paths of the directories below [dir], in the order [watchSubdirs]
    comes to them; what lies below a directory that cannot be listed is not
    reached. *)
Fixpoint subdirs (dir : string) (n : Node) : list string :=
  match n with
  | NDir None ps =>
      flat_map (fun p => match p.2 with
                         | NFile => []
                         | NDir _ _ => Join dir p.1 :: subdirs (Join dir p.1) p.2
                         end) ps
  | _ => []
  end.

(** The paths up to the first one that the event source refuses. *)
Fixpoint accepted_prefix (w : World) (now : Z) (paths : list string) : list string :=
  match paths with
  | [] => []
  | p :: paths' =>
      match wat_Add w now p with
      | Ok _ => p :: accepted_prefix w now paths'
      | Err _ => []
      end
  end.

(** The paths registered according to a trace, in order. *)
Definition registered (tr : list Emit) : list string :=
  omap (fun e => match what e with WatchAdd p => Some p | _ => None end) tr.

Definition enum_state (r : Enum) : State :=
  match r with EnumReturned _ s => s | EnumFatal s => s end.

(** What a call of [watchSubdirs] that came to [paths] has done to [s]. *)
Definition enum_facts (w : World) (now : Z) (s : State) (paths : list string) (r : Enum)
    : Prop :=
  registered (trace (enum_state r)) = registered (trace s) ++ accepted_prefix w now paths
  ∧ watches (enum_state r) = list_to_set (accepted_prefix w now paths) ∪ watches s
  ∧ timers (enum_state r) = timers s
  ∧ scan_calls (trace (enum_state r)) = scan_calls (trace s)
  ∧ match r with
    | EnumReturned _ _ => accepted_prefix w now paths = paths
    | EnumFatal _ => accepted_prefix w now paths ≠ paths
    end.

(** ** More of the concrete installation *)

(** Below [/data]: a file, the directory [sub] with the directory [deep] in
    it, and the directory [locked], which cannot be listed. *)
Definition data_tree : Node :=
  NDir None
    [ ("a.mp4", NFile);
      ("sub", NDir None [("deep", NDir None []); ("b.mp4", NFile)]);
      ("locked", NDir (Some "permission denied") [("hidden", NDir None [])]) ].

(** [data_world] with an event source that has no room for [/data/sub/deep]. *)
Definition full_world : World :=
  {| os_Getwd := os_Getwd data_world;
     os_Stat := os_Stat data_world;
     fsnotify_NewWatcher := fsnotify_NewWatcher data_world;
     wat_Add := fun _ path =>
       if decide (path = "/data/sub/deep") then Err "no space left on device"
       else Ok tt;
     http_NewRequest := http_NewRequest data_world;
     stashAPIKey := stashAPIKey data_world;
     client_Do := client_Do data_world |}.

(** [data_world] seen from the working directory [/]: a relative path is
    stat'ed as the path it names there. *)
Definition cwd_world : World :=
  {| os_Getwd := os_Getwd data_world;
     os_Stat := fun t path => os_Stat data_world t (Join "/" path);
     fsnotify_NewWatcher := fsnotify_NewWatcher data_world;
     wat_Add := wat_Add data_world;
     http_NewRequest := http_NewRequest data_world;
     stashAPIKey := stashAPIKey data_world;
     client_Do := client_Do data_world |}.

(** ** The requests and the errors in a list of effects *)

Definition posts (effs : list Effect) : list (string * option string * ScanOptions) :=
  omap (fun e => match e with HttpPost ep k b => Some (ep, k, b) | _ => None end) effs.

Definition error_lines (effs : list Effect) : list (list string) :=
  omap (fun e => match e with Log LvError msg => Some msg | _ => None end) effs.

Definition ends_process (e : Effect) : bool :=
  match e with LogFatal _ => true | _ => false end.

(** ** The text of the request body

    [init] builds the body from a template that spans several lines and then
    takes the newlines out and turns every run of white space into one
    space. *)

Definition char_newline : Ascii.ascii := Ascii.ascii_of_nat 10.
Definition char_tab : Ascii.ascii := Ascii.ascii_of_nat 9.
Definition char_quote : Ascii.ascii := Ascii.ascii_of_nat 34.
Definition char_space : Ascii.ascii := Ascii.ascii_of_nat 32.

Definition NL : string := String char_newline "".
Definition TAB : string := String char_tab "".
Definition QUOTE : string := String char_quote "".

(** [fmt.Sprintf("%t", b)]. *)
Definition fmt_bool (b : bool) : string := if b then "true" else "false".

(** The raw string of [init], before the two replacements. *)
Definition scan_template (o : ScanOptions) : string :=
  "{" +:+ NL +:+
  QUOTE +:+ "query" +:+ QUOTE +:+ ": " +:+ QUOTE +:+ "mutation {" +:+ NL +:+
  TAB +:+ "metadataScan (input: {" +:+ NL +:+
  TAB +:+ TAB +:+ "rescan: " +:+ fmt_bool (scanRescan o) +:+ "," +:+ NL +:+
  TAB +:+ TAB +:+ "scanGenerateClipPreviews: "
    +:+ fmt_bool (scanGenerateClipPreviews o) +:+ "," +:+ NL +:+
  TAB +:+ TAB +:+ "scanGenerateCovers: " +:+ fmt_bool (scanGenerateCovers o) +:+ "," +:+ NL +:+
  TAB +:+ TAB +:+ "scanGenerateImagePreviews: "
    +:+ fmt_bool (scanGenerateImagePreviews o) +:+ "," +:+ NL +:+
  TAB +:+ TAB +:+ "scanGeneratePhashes: " +:+ fmt_bool (scanGeneratePhashes o) +:+ "," +:+ NL +:+
  TAB +:+ TAB +:+ "scanGeneratePreviews: " +:+ fmt_bool (scanGeneratePreviews o) +:+ "," +:+ NL +:+
  TAB +:+ TAB +:+ "scanGenerateSprites: " +:+ fmt_bool (scanGenerateSprites o) +:+ "," +:+ NL +:+
  TAB +:+ TAB +:+ "scanGenerateThumbnails: " +:+ fmt_bool (scanGenerateThumbnails o) +:+ NL +:+
  TAB +:+ "})}" +:+ QUOTE +:+ NL +:+
  "}".

(** [regexp.MustCompile(`\n`).ReplaceAllString(str, "")]. *)
Fixpoint remove_newlines (s : string) : string :=
  match s with
  | EmptyString => EmptyString
  | String c s' =>
      if Ascii.eqb c char_newline then remove_newlines s'
      else String c (remove_newlines s')
  end.

(** The class [\s] of Go's regular expressions: tab, newline, form feed,
    carriage return and space. *)
Definition is_space (c : Ascii.ascii) : bool :=
  let n := Ascii.nat_of_ascii c in
  (n =? 9)%nat || (n =? 10)%nat || (n =? 12)%nat || (n =? 13)%nat || (n =? 32)%nat.

(** [regexp.MustCompile(`\s+`).ReplaceAllString(str, " ")]: every maximal run
    of white space becomes one space; [in_run] tells that the character
    before was white space. *)
Fixpoint collapse_spaces (in_run : bool) (s : string) : string :=
  match s with
  | EmptyString => EmptyString
  | String c s' =>
      if is_space c then
        if in_run then collapse_spaces true s'
        else String char_space (collapse_spaces true s')
      else String c (collapse_spaces false s')
  end.

(** The text [init] leaves in [scanBody]. *)
Definition scanBody_text (o : ScanOptions) : string :=
  collapse_spaces false (remove_newlines (scan_template o)).

(** White space other than single spaces: a character of [\s] that is no
    space, or two spaces in a row. *)
Fixpoint loose_space (s : string) : bool :=
  match s with
  | EmptyString => false
  | String c s' =>
      (is_space c && negb (Ascii.eqb c char_space))
      || (Ascii.eqb c char_space
          && match s' with
             | String c' _ => Ascii.eqb c' char_space
             | EmptyString => false
             end)
      || loose_space s'
  end.

(** ** Further concrete inputs *)

(** Three writes to [/data/x.mp4], 150ms apart. *)
Definition three_spaced_writes : list (Z * Msg) :=
  [ (0, MEvent (mkEvent "/data/x.mp4" Write));
    (150 * Millisecond, MEvent (mkEvent "/data/x.mp4" Write));
    (300 * Millisecond, MEvent (mkEvent "/data/x.mp4" Write)) ]%Z.


(** A world where nothing can be stat'ed and nothing registered. *)
Definition blind_world : World :=
  {| os_Getwd := Err "getwd: no such file or directory";
     os_Stat := fun _ _ => Err "permission denied";
     fsnotify_NewWatcher := fun _ => Err "too many open files";
     wat_Add := fun _ _ => Err "no space left on device";
     http_NewRequest := http_NewRequest data_world;
     stashAPIKey := stashAPIKey data_world;
     client_Do := client_Do data_world |}.

(** * Lemmas on the callback *)

Section ProcessOp.

Variable cfg : Config.
Variable w : World.

Lemma trace_emit now o effs s :
  trace (emit now o effs s) = trace s ++ map (mkEmit now o) effs.
Proof. reflexivity. Qed.

Lemma processOp_inner_timers now e s :
  timers (state_of (processOp_inner cfg w now e s)) = timers s.
Proof.
  unfold processOp_inner.
  repeat (case_match; simpl; try reflexivity).
Qed.

Lemma processOp_timers now e s s' :
  processOp cfg w now e s = Running s' →
  timers s' = delete (Name e) (timers s).
Proof.
  unfold processOp. pose proof (processOp_inner_timers now e s) as Ht.
  destruct (processOp_inner cfg w now e s) as [s1|c s1]; [|discriminate].
  intros [= <-]. simpl in *. by rewrite Ht.
Qed.

Lemma processOp_inner_trace now e s :
  trace (state_of (processOp_inner cfg w now e s))
  = trace s ++ trace (state_of (processOp_inner cfg w now e fresh)).
Proof.
  unfold processOp_inner.
  repeat (case_match; simpl; rewrite ?app_assoc; try reflexivity).
Qed.

Lemma processOp_state_of now e s :
  trace (state_of (processOp cfg w now e s))
  = trace (state_of (processOp_inner cfg w now e s)).
Proof. unfold processOp. by destruct (processOp_inner cfg w now e s). Qed.

Lemma processOp_trace now e s :
  trace (state_of (processOp cfg w now e s))
  = trace s ++ processOp_emits cfg w now e.
Proof.
  unfold processOp_emits. rewrite !processOp_state_of.
  apply processOp_inner_trace.
Qed.

Lemma processOp_emits_who now e :
  Forall (fun x => who x = FromTimer (Name e) ∧ at_time x = now)
         (processOp_emits cfg w now e).
Proof.
  unfold processOp_emits. rewrite processOp_state_of.
  unfold processOp_inner, sendScanRequest, printVerbose, printInfo, printError.
  repeat (case_match; simpl; repeat constructor).
Qed.

Lemma processOp_running now e s :
  always_adds w → is_running (processOp cfg w now e s) = true.
Proof.
  intros Hadd. unfold processOp, processOp_inner.
  repeat (case_match; simpl; try reflexivity); try discriminate.
  all: match goal with H : wat_Add _ _ _ = Err _ |- _ => rewrite Hadd in H; discriminate end.
Qed.

End ProcessOp.

(** * Lemmas on the loop and on the timers *)

Section LoopLemmas.

Variable cfg : Config.
Variable w : World.

Lemma trace_of_app p tr1 tr2 :
  trace_of p (tr1 ++ tr2) = trace_of p tr1 ++ trace_of p tr2.
Proof. apply filter_app. Qed.

Lemma trace_of_all p tr :
  Forall (fun x => who x = FromTimer p) tr → trace_of p tr = tr.
Proof.
  induction 1 as [|x tr Hx _ IH]; [reflexivity|].
  unfold trace_of in *. rewrite filter_cons_True by done. by rewrite IH.
Qed.

Lemma trace_of_none p tr :
  Forall (fun x => who x ≠ FromTimer p) tr → trace_of p tr = [].
Proof.
  induction 1 as [|x tr Hx _ IH]; [reflexivity|].
  unfold trace_of in *. by rewrite filter_cons_False.
Qed.

Lemma trace_of_emits_same now e :
  trace_of (Name e) (processOp_emits cfg w now e) = processOp_emits cfg w now e.
Proof.
  apply trace_of_all. eapply Forall_impl; [apply processOp_emits_who|].
  by intros x [? _].
Qed.

Lemma trace_of_emits_other p now e :
  p ≠ Name e → trace_of p (processOp_emits cfg w now e) = [].
Proof.
  intros Hne. apply trace_of_none.
  eapply Forall_impl; [apply processOp_emits_who|].
  intros x [Hx _]. rewrite Hx. congruence.
Qed.

Lemma trace_of_loop p now effs s :
  trace_of p (trace (emit now FromLoop effs s)) = trace_of p (trace s).
Proof.
  rewrite trace_emit, trace_of_app, (trace_of_none p (map _ effs)).
  - by rewrite app_nil_r.
  - apply Forall_forall. intros x Hx. apply list_elem_of_fmap in Hx as (y & -> & _).
    discriminate.
Qed.

Lemma on_event_skip now e s :
  qualifying e = false → on_event cfg now e s = s.
Proof.
  unfold qualifying, on_event. intros Hq.
  destruct (Has e Write), (Has e Remove), (Has e Create); done.
Qed.

Lemma on_event_timers now e s :
  qualifying e = true →
  timers (on_event cfg now e s) = <[Name e := entry_after now e s]> (timers s).
Proof.
  unfold qualifying, on_event, entry_after. intros Hq.
  destruct (negb (Has e Write) && negb (Has e Remove) && negb (Has e Create)) eqn:Hf.
  { destruct (Has e Write), (Has e Remove), (Has e Create); done. }
  simpl. destruct (timers s !! Name e) as [t|] eqn:Ht; simpl.
  - reflexivity.
  - by rewrite insert_insert_eq.
Qed.

Lemma on_event_watches now e s : watches (on_event cfg now e s) = watches s.
Proof.
  unfold on_event.
  destruct (negb (Has e Write) && negb (Has e Remove) && negb (Has e Create));
    [reflexivity|].
  simpl. by destruct (timers s !! Name e).
Qed.

Lemma on_event_trace now e s :
  trace (on_event cfg now e s)
  = trace s ++ (if qualifying e
                then map (mkEmit now FromLoop) (printDebug cfg ["EVENT"; Name e])
                else []).
Proof.
  unfold on_event, qualifying.
  destruct (Has e Write), (Has e Remove), (Has e Create); simpl;
    try (by rewrite app_nil_r);
    destruct (timers s !! Name e); reflexivity.
Qed.

Lemma on_event_trace_of p now e s :
  trace_of p (trace (on_event cfg now e s)) = trace_of p (trace s).
Proof.
  rewrite on_event_trace, trace_of_app. destruct (qualifying e).
  - rewrite (trace_of_none p (map _ _)); [by rewrite app_nil_r|].
    apply Forall_forall. intros x Hx. apply list_elem_of_fmap in Hx as (y & -> & _).
    discriminate.
  - by rewrite app_nil_r.
Qed.

Lemma on_event_keyed now e s : keyed s → keyed (on_event cfg now e s).
Proof.
  intros Hk. destruct (qualifying e) eqn:Hq.
  - intros k t. rewrite on_event_timers by done.
    destruct (decide (Name e = k)) as [<-|Hne].
    + rewrite lookup_insert_eq. intros [= <-]. unfold entry_after. simpl.
      destruct (timers s !! Name e) as [t0|] eqn:Ht0; [by apply Hk|done].
    + rewrite lookup_insert_ne by done. apply Hk.
  - by rewrite on_event_skip.
Qed.

Lemma on_msg_keyed now m s : keyed s → keyed (on_msg cfg now m s).
Proof. destruct m; [apply on_event_keyed|done]. Qed.

Lemma on_msg_trace_of p now m s :
  trace_of p (trace (on_msg cfg now m s)) = trace_of p (trace s).
Proof. destruct m; [apply on_event_trace_of|apply trace_of_loop]. Qed.

Lemma on_msg_other p now m s :
  event_on p m = None → timers (on_msg cfg now m s) !! p = timers s !! p.
Proof.
  destruct m as [e|err]; simpl; [|done].
  case_decide as Hn; [done|]. intros _.
  destruct (qualifying e) eqn:Hq.
  - rewrite on_event_timers by done. by rewrite lookup_insert_ne.
  - by rewrite on_event_skip.
Qed.

End LoopLemmas.

Section Timers.

Variable cfg : Config.
Variable w : World.
Hypothesis Hadd : always_adds w.

Lemma emits_in_cons_same p t l :
  emits_in cfg w p ((p, t) :: l)
  = match when t with Some d => processOp_emits cfg w d (f_event t) | None => [] end.
Proof. unfold emits_in. simpl. by rewrite decide_True. Qed.

Lemma emits_in_cons_other p k t l :
  k ≠ p → emits_in cfg w p ((k, t) :: l) = emits_in cfg w p l.
Proof.
  intros Hne. unfold emits_in. simpl. rewrite decide_False by done.
  destruct (list_find _ l) as [[i [k' t']]|]; reflexivity.
Qed.

Lemma emits_in_absent p l : p ∉ l.*1 → emits_in cfg w p l = [].
Proof.
  intros Hp. unfold emits_in.
  destruct (list_find _ l) as [[i [k' t']]|] eqn:Hf; [|done].
  apply list_find_Some in Hf as (Hl & Hk & _). simpl in Hk. subst.
  exfalso. apply Hp. apply list_elem_of_fmap. exists (p, t'). split; [done|].
  by eapply list_elem_of_lookup_2.
Qed.

Lemma fire_all_spec p l : ∀ s,
  NoDup l.*1 →
  (∀ k t, (k, t) ∈ l → Name (f_event t) = k) →
  ∃ s', fire_all cfg w l (Running s) = Running s'
    ∧ (∀ k, k ∉ l.*1 → timers s' !! k = timers s !! k)
    ∧ (∀ k t, timers s' !! k = Some t → timers s !! k = Some t)
    ∧ (∀ k t, (k, t) ∈ l → is_Some (when t) → timers s' !! k = None)
    ∧ trace_of p (trace s') = trace_of p (trace s) ++ emits_in cfg w p l.
Proof.
  induction l as [|[k t] l IH]; intros s Hnd Hkey.
  { exists s. unfold emits_in. simpl. rewrite app_nil_r. split_and!; try done.
    intros k t Hin. by apply elem_of_nil in Hin. }
  simpl in Hnd. apply NoDup_cons in Hnd as [Hk Hnd].
  assert (Hkey' : ∀ k0 t0, (k0, t0) ∈ l → Name (f_event t0) = k0).
  { intros k0 t0 Hin. apply Hkey. by right. }
  assert (Hname : Name (f_event t) = k) by (apply Hkey; left).
  unfold fire_all. simpl. fold (fire_all cfg w l).
  destruct (when t) as [d|] eqn:Hw.
  - pose proof (processOp_running cfg w d (f_event t) s Hadd) as Hrun.
    pose proof (processOp_trace cfg w d (f_event t) s) as Htr.
    destruct (processOp cfg w d (f_event t) s) as [s1|c s1] eqn:Hp; [|discriminate].
    apply processOp_timers in Hp. rewrite Hname in Hp. simpl in Htr.
    destruct (IH s1 Hnd Hkey') as (s' & Hf & Hout & Hsub & Hin & Htrace).
    exists s'. split; [done|]. split_and!.
    + intros k0 Hk0. rewrite Hout, Hp.
      * apply lookup_delete_ne. intros ->. apply Hk0. simpl. left.
      * intros Hk0'. apply Hk0. simpl. by right.
    + intros k0 t0 Hl. apply Hsub in Hl. rewrite Hp in Hl.
      apply lookup_delete_Some in Hl. tauto.
    + intros k0 t0 Hel Hsome. apply elem_of_cons in Hel as [[= -> ->]|Hel].
      * rewrite (Hout k Hk), Hp. apply lookup_delete_eq.
      * by eapply Hin.
    + rewrite Htrace, Htr, trace_of_app, <- app_assoc. f_equal.
      destruct (decide (k = p)) as [->|Hne].
      * rewrite emits_in_cons_same, Hw, (emits_in_absent p l Hk), app_nil_r.
        rewrite <- Hname. apply trace_of_emits_same.
      * rewrite emits_in_cons_other by done.
        rewrite trace_of_emits_other; [done|]. congruence.
  - destruct (IH s Hnd Hkey') as (s' & Hf & Hout & Hsub & Hin & Htrace).
    exists s'. split; [done|]. split_and!.
    + intros k0 Hk0. apply Hout. intros Hk0'. apply Hk0. simpl. by right.
    + done.
    + intros k0 t0 Hel Hsome. apply elem_of_cons in Hel as [[= -> ->]|Hel].
      * rewrite Hw in Hsome. by destruct Hsome.
      * by eapply Hin.
    + rewrite Htrace. f_equal.
      destruct (decide (k = p)) as [->|Hne].
      * by rewrite emits_in_cons_same, Hw, (emits_in_absent p l Hk).
      * by rewrite emits_in_cons_other.
Qed.

Lemma emits_in_elem p t l :
  NoDup l.*1 → (p, t) ∈ l →
  emits_in cfg w p l
  = match when t with Some d => processOp_emits cfg w d (f_event t) | None => [] end.
Proof.
  induction l as [|[k t0] l IH]; intros Hnd Hin.
  { by apply elem_of_nil in Hin. }
  simpl in Hnd. apply NoDup_cons in Hnd as [Hk Hnd].
  apply elem_of_cons in Hin as [[= <- <-]|Hin].
  - apply emits_in_cons_same.
  - rewrite emits_in_cons_other; [by apply IH|].
    intros ->. apply Hk. apply list_elem_of_fmap. by exists (p, t).
Qed.

Lemma elem_of_due_timers now s k t :
  (k, t) ∈ due_timers now s ↔ timers s !! k = Some t ∧ is_due now (k, t) = true.
Proof.
  unfold due_timers. rewrite merge_sort_Permutation, list_elem_of_filter.
  rewrite elem_of_map_to_list. tauto.
Qed.

Lemma NoDup_due_timers now s : NoDup (due_timers now s).*1.
Proof.
  unfold due_timers. rewrite merge_sort_Permutation.
  apply (sublist_NoDup _ (map_to_list (timers s)).*1).
  - apply NoDup_fst_map_to_list.
  - apply fmap_sublist. apply sublist_filter.
Qed.

Lemma emits_in_due p now s :
  emits_in cfg w p (due_timers now s) = due_emits cfg w p now s.
Proof.
  unfold due_emits.
  destruct (timers s !! p) as [t|] eqn:Ht.
  - destruct (is_due now (p, t)) eqn:Hd.
    + rewrite (emits_in_elem p t); [|apply NoDup_due_timers|by apply elem_of_due_timers].
      unfold is_due in Hd. simpl in Hd. destruct (when t); [by rewrite Hd|done].
    + rewrite emits_in_absent.
      * unfold is_due in Hd. simpl in Hd. destruct (when t); [by rewrite Hd|done].
      * intros Hin. apply list_elem_of_fmap in Hin as ([k t'] & -> & Hin).
        apply elem_of_due_timers in Hin as [Hl Hd']. simpl in *. congruence.
  - apply emits_in_absent.
    intros Hin. apply list_elem_of_fmap in Hin as ([k t'] & -> & Hin).
    apply elem_of_due_timers in Hin as [Hl Hd']. simpl in *. congruence.
Qed.

Lemma advance_spec p now s :
  keyed s →
  ∃ s', advance cfg w now (Running s) = Running s' ∧ keyed s'
    ∧ (∀ k t, timers s !! k = Some t → is_due now (k, t) = false →
              timers s' !! k = Some t)
    ∧ (∀ k t, timers s !! k = Some t → is_due now (k, t) = true →
              timers s' !! k = None)
    ∧ (∀ k, timers s !! k = None → timers s' !! k = None)
    ∧ trace_of p (trace s') = trace_of p (trace s) ++ due_emits cfg w p now s.
Proof.
  intros Hkey.
  destruct (fire_all_spec p (due_timers now s) s) as (s' & Hf & Hout & Hsub & Hin & Htr).
  { apply NoDup_due_timers. }
  { intros k t Hel. apply elem_of_due_timers in Hel as [Hl _]. by eapply Hkey. }
  assert (Hno : ∀ k t, timers s !! k = Some t → is_due now (k, t) = false →
                       k ∉ (due_timers now s).*1).
  { intros k t Hl Hd Hel. apply list_elem_of_fmap in Hel as ([k' t'] & -> & Hel).
    apply elem_of_due_timers in Hel as [Hl' Hd']. simpl in *. congruence. }
  exists s'. split; [exact Hf|]. split_and!.
  - intros k t Hl. eapply Hkey, Hsub, Hl.
  - intros k t Hl Hd. rewrite Hout; [done|]. by eapply Hno.
  - intros k t Hl Hd. eapply Hin; [by apply elem_of_due_timers|].
    unfold is_due in Hd. simpl in Hd. by destruct (when t).
  - intros k Hl. destruct (timers s' !! k) as [t|] eqn:Hl'; [|done].
    apply Hsub in Hl'. congruence.
  - by rewrite Htr, emits_in_due.
Qed.

End Timers.

(** ** Bursts on one path *)

Section Burst.

Variable cfg : Config.
Variable w : World.
Hypothesis Hadd : always_adds w.
Variable p : string.

Lemma events_on_cons t m inbox :
  events_on p ((t, m) :: inbox)
  = match event_on p m with
    | Some e => (t, e) :: events_on p inbox
    | None => events_on p inbox
    end.
Proof. unfold events_on. simpl. by destruct (event_on p m). Qed.

Lemma run_cons t m inbox horizon q :
  run cfg w ((t, m) :: inbox) horizon q = run cfg w inbox horizon (deliver cfg w t m q).
Proof. reflexivity. Qed.

Lemma last_time_cons t0 t ts : last_time t0 (t :: ts) = last_time t ts.
Proof.
  unfold last_time. destruct ts as [|t' ts]; [done|].
  change (last (t :: t' :: ts)) with (last (t' :: ts)).
  assert (Hs : is_Some (last (t' :: ts))).
  { rewrite last_is_Some. done. }
  destruct Hs as [x ->]. done.
Qed.



End Burst.

Section BurstFromIdle.

Variable cfg : Config.
Variable w : World.
Hypothesis Hadd : always_adds w.
Variable p : string.


End BurstFromIdle.

(** A Write or Remove event makes [processOp] call the notifier once. *)
Lemma processOp_emits_write_or_remove cfg w now e :
  write_or_remove e = true →
  scan_calls (processOp_emits cfg w now e) = [now].
Proof.
  unfold write_or_remove. intros [_ Hc%negb_true_iff]%andb_true_iff.
  unfold processOp_emits, processOp, processOp_inner. rewrite Hc. simpl.
  unfold sendScanRequest, printError.
  repeat (case_match; simpl; try reflexivity).
Qed.

Lemma scan_calls_app tr1 tr2 :
  scan_calls (tr1 ++ tr2) = scan_calls tr1 ++ scan_calls tr2.
Proof. unfold scan_calls. by rewrite filter_app, fmap_app. Qed.

Lemma write_or_remove_qualifying e :
  write_or_remove e = true → qualifying e = true.
Proof.
  unfold write_or_remove, qualifying.
  destruct (Has e Write), (Has e Remove), (Has e Create); done.
Qed.

Lemma keyed_fresh : keyed fresh.
Proof. intros k t. unfold fresh. simpl. by rewrite lookup_empty. Qed.

Lemma data_world_always_adds : always_adds data_world.
Proof. intros t path. reflexivity. Qed.

(** * Paths: [Clean] is idempotent *)

Lemma split_sep_cons_nosep x r :
  has_sep x = false →
  split_sep (x +:+ String Separator r) = x :: split_sep r.
Proof.
  induction x as [|c x IH]; simpl; intros Hx.
  - reflexivity.
  - apply orb_false_iff in Hx as [Hc Hx]. rewrite Hc, (IH Hx). reflexivity.
Qed.

Lemma split_sep_nosep x : has_sep x = false → split_sep x = [x].
Proof.
  induction x as [|c x IH]; simpl; intros Hx; [reflexivity|].
  apply orb_false_iff in Hx as [Hc Hx]. by rewrite Hc, (IH Hx).
Qed.

Lemma split_join xs :
  xs ≠ [] → Forall (fun c => has_sep c = false) xs → split_sep (join_sep xs) = xs.
Proof.
  induction xs as [|x xs IH]; [done|]. intros _ Hxs.
  apply Forall_cons in Hxs as [Hx Hxs]. simpl.
  destruct xs as [|y ys]; [by apply split_sep_nosep|].
  rewrite split_sep_cons_nosep by done. f_equal. by apply IH.
Qed.

Lemma split_sep_has_no_sep s : Forall (fun c => has_sep c = false) (split_sep s).
Proof.
  induction s as [|c s IH]; simpl; [by repeat constructor|].
  destruct (Ascii.eqb c Separator) eqn:Hc; [by constructor|].
  destruct (split_sep s) as [|x xs]; [by repeat constructor; simpl; rewrite Hc|].
  apply Forall_cons in IH as [Hx Hxs]. constructor; [|done]. simpl. by rewrite Hc, Hx.
Qed.

Lemma clean_elem_name rooted out c :
  is_name c → clean_elem rooted out c = c :: out.
Proof.
  intros (H1 & H2 & H3 & _). unfold clean_elem.
  by rewrite !decide_False.
Qed.

Lemma clean_elem_stack rooted out c :
  has_sep c = false →
  cleaned_stack rooted out → cleaned_stack rooted (clean_elem rooted out c).
Proof.
  intros Hc (names & dots & -> & Hn & Hd & Hr). unfold clean_elem.
  destruct (decide (c = "")); [by exists names, dots|].
  destruct (decide (c = ".")); [by exists names, dots|].
  destruct (decide (c = "..")) as [->|].
  - destruct names as [|x names]; simpl.
    + destruct dots as [|d dots].
      * destruct rooted; [by exists [], []|].
        exists [], [".."]. split_and!; [done|done|by repeat constructor|done].
      * apply Forall_cons in Hd as [-> Hd]. rewrite decide_True by done.
        exists [], (".." :: ".." :: dots).
        split_and!; [done|done|by repeat constructor|].
        intros Hroot. by specialize (Hr Hroot).
    + apply Forall_cons in Hn as [Hx Hn].
      destruct Hx as (_ & _ & Hx & _). rewrite decide_False by done.
      by exists names, dots.
  - exists (c :: names), dots. split_and!; [done| |done|done].
    constructor; [|done]. done.
Qed.

Lemma fold_clean_stack rooted xs : ∀ out,
  Forall (fun c => has_sep c = false) xs →
  cleaned_stack rooted out →
  cleaned_stack rooted (fold_left (clean_elem rooted) xs out).
Proof.
  induction xs as [|x xs IH]; intros out Hxs Hout; [done|].
  apply Forall_cons in Hxs as [Hx Hxs]. simpl.
  apply IH; [done|]. by apply clean_elem_stack.
Qed.

Lemma fold_clean_names rooted names : ∀ out,
  Forall is_name names →
  fold_left (clean_elem rooted) names out = rev names ++ out.
Proof.
  induction names as [|x names IH]; intros out Hn; [done|].
  apply Forall_cons in Hn as [Hx Hn]. simpl.
  rewrite clean_elem_name by done. rewrite IH by done.
  by rewrite <- app_assoc.
Qed.

Lemma fold_clean_dots dots : ∀ out,
  Forall (fun c => c = "..") dots → Forall (fun c => c = "..") out →
  fold_left (clean_elem false) dots out = rev dots ++ out.
Proof.
  induction dots as [|x dots IH]; intros out Hd Hout; [done|].
  apply Forall_cons in Hd as [-> Hd]. simpl.
  assert (Hstep : clean_elem false out ".." = ".." :: out).
  { unfold clean_elem. simpl. destruct out as [|y out]; [done|].
    apply Forall_cons in Hout as [-> _]. done. }
  rewrite Hstep, IH; [by rewrite <- app_assoc|done|by constructor].
Qed.

(** Reading back the elements that [Clean] wrote gives the same elements. *)
Lemma fold_clean_stack_again rooted out :
  cleaned_stack rooted out →
  fold_left (clean_elem rooted) (rev out) [] = out.
Proof.
  intros (names & dots & -> & Hn & Hd & Hr).
  rewrite rev_app_distr, fold_left_app.
  destruct rooted.
  - rewrite (Hr eq_refl). simpl.
    rewrite fold_clean_names by (apply Forall_rev; assumption).
    by rewrite rev_involutive, !app_nil_r.
  - rewrite (fold_clean_dots (rev dots)); [|apply Forall_rev; assumption|constructor].
    rewrite fold_clean_names by (apply Forall_rev; assumption).
    by rewrite !rev_involutive, app_nil_r.
Qed.

Lemma cleaned_stack_has_no_sep rooted out :
  cleaned_stack rooted out → Forall (fun c => has_sep c = false) (rev out).
Proof.
  intros (names & dots & -> & Hn & Hd & _).
  apply Forall_rev, Forall_app. split.
  - eapply Forall_impl; [exact Hn|]. by intros c (_ & _ & _ & ?).
  - eapply Forall_impl; [exact Hd|]. by intros c ->.
Qed.

Lemma cleaned_stack_nonempty rooted out :
  cleaned_stack rooted out → Forall (fun c => c ≠ "") (rev out).
Proof.
  intros (names & dots & -> & Hn & Hd & _).
  apply Forall_rev, Forall_app. split.
  - eapply Forall_impl; [exact Hn|]. by intros c (? & _).
  - eapply Forall_impl; [exact Hd|]. by intros c ->.
Qed.

Lemma join_sep_empty xs :
  Forall (fun c => c ≠ "") xs → join_sep xs = "" → xs = [].
Proof.
  destruct xs as [|x xs]; [done|]. intros Hx%Forall_cons. destruct Hx as [Hx _].
  simpl. destruct xs; [done|]. destruct x; [done|discriminate].
Qed.

Lemma IsAbs_String c s : IsAbs (String c s) = Ascii.eqb c Separator.
Proof.
  unfold IsAbs, HasPrefix. cbn [String.prefix].
  destruct (Ascii.ascii_dec _ c) as [<-|Hne].
  - by destruct s.
  - symmetry. apply Ascii.eqb_neq. intros ->. by apply Hne.
Qed.

Lemma join_sep_not_abs xs :
  Forall (fun c => has_sep c = false) xs → Forall (fun c => c ≠ "") xs →
  IsAbs (join_sep xs) = false.
Proof.
  destruct xs as [|x xs]; [done|].
  intros [Hs _]%Forall_cons [Hx _]%Forall_cons.
  destruct x as [|c x]; [done|]. simpl in Hs. apply orb_false_iff in Hs as [Hc _].
  destruct xs as [|y ys].
  - change (join_sep [String c x]) with (String c x). by rewrite IsAbs_String.
  - change (join_sep (String c x :: y :: ys))
      with (String c (x +:+ String Separator (join_sep (y :: ys)))).
    by rewrite IsAbs_String.
Qed.

Lemma Clean_idempotent path : Clean (Clean path) = Clean path.
Proof.
  destruct (decide (path = "")) as [->|Hpath]; [reflexivity|].
  set (rooted := IsAbs path).
  set (out := fold_left (clean_elem rooted) (split_sep path) []).
  assert (Hc : Clean path
               = if rooted then String Separator (join_sep (rev out))
                 else if decide (join_sep (rev out) = "") then "."
                      else join_sep (rev out)).
  { unfold Clean. by rewrite decide_False. }
  assert (Hout : cleaned_stack rooted out).
  { apply fold_clean_stack; [apply split_sep_has_no_sep|].
    by exists [], []. }
  pose proof (cleaned_stack_has_no_sep _ _ Hout) as Hns.
  pose proof (cleaned_stack_nonempty _ _ Hout) as Hne.
  pose proof (fold_clean_stack_again _ _ Hout) as Hagain.
  rewrite Hc. clearbody out rooted. destruct rooted.
  - unfold Clean. rewrite decide_False by done.
    rewrite IsAbs_String, Ascii.eqb_refl. f_equal. f_equal. f_equal.
    change (split_sep (String Separator (join_sep (rev out))))
      with ("" :: split_sep (join_sep (rev out))).
    cbn [fold_left]. change (clean_elem true [] "") with (@nil string).
    destruct (rev out) as [|x xs] eqn:Hrev.
    + apply (f_equal (@rev string)) in Hrev. rewrite rev_involutive in Hrev.
      by rewrite Hrev.
    + rewrite split_join by done. exact Hagain.
  - destruct (decide (join_sep (rev out) = "")) as [He|He]; [reflexivity|].
    unfold Clean. rewrite decide_False by done.
    rewrite join_sep_not_abs by done.
    assert (Hnil : rev out ≠ []) by (intros Hnil; by rewrite Hnil in He).
    rewrite split_join by done. rewrite Hagain.
    by rewrite decide_False.
Qed.

(** * Lemmas on the watch roots *)

Lemma Abs_of_absolute w v : IsAbs v = true → Abs w v = Ok (Clean v).
Proof. unfold Abs. by intros ->. Qed.

Lemma existsb_false {A} (f : A → bool) l x :
  existsb f l = false → x ∈ l → f x = false.
Proof.
  intros He Hx. apply not_true_iff_false. intros Hf.
  assert (existsb f l = true); [|congruence].
  apply existsb_exists. exists x. split; [by apply list_elem_of_In|done].
Qed.

Lemma watcher_Set_keeps w now ws v ws' :
  IsAbs v = true → all_clean ws → earlier_free ws →
  watcher_Set w now ws v = Ok ws' →
  all_clean ws' ∧ earlier_free ws'.
Proof.
  intros Hv Hclean Hfree. unfold watcher_Set.
  destruct (os_Stat w now v) as [[]|]; simpl; try discriminate.
  destruct (existsb (fun p => covers p v) ws) eqn:Hex.
  { intros H. injection H as H. subst. by split. }
  rewrite Abs_of_absolute by done. intros [= <-]. split.
  - apply Forall_app. split; [done|]. repeat constructor. apply Clean_idempotent.
  - intros i j p q Hij Hi Hj.
    destruct (decide (j < length ws)%nat) as [Hlt|Hge].
    + rewrite lookup_app_l in Hi by lia. rewrite lookup_app_l in Hj by lia.
      exact (Hfree i j p q Hij Hi Hj).
    + assert (Hjl : j = length ws).
      { apply lookup_lt_Some in Hj. rewrite length_app in Hj. simpl in Hj. lia. }
      subst j. rewrite lookup_app_l in Hi by lia.
      rewrite lookup_app_r, Nat.sub_diag in Hj by lia. injection Hj as <-.
      assert (Hp : p ∈ ws) by (by eapply list_elem_of_lookup_2).
      pose proof (existsb_false _ _ _ Hex Hp) as Hcov. simpl in Hcov.
      unfold covers in Hcov. unfold all_clean in Hclean. rewrite Forall_forall in Hclean.
      by rewrite (Hclean p Hp) in Hcov.
Qed.

Lemma flag_Parse_keeps w now values : ∀ ws ws',
  Forall (fun v => IsAbs v = true) values →
  all_clean ws → earlier_free ws →
  flag_Parse w now values ws = Ok ws' →
  all_clean ws' ∧ earlier_free ws'.
Proof.
  induction values as [|v values IH]; intros ws ws' Hvs Hclean Hfree; simpl.
  { intros H. injection H as H. subst. by split. }
  apply Forall_cons in Hvs as [Hv Hvs].
  destruct (watcher_Set w now ws v) as [ws1|] eqn:Hset; [|discriminate].
  destruct (watcher_Set_keeps _ _ _ _ _ Hv Hclean Hfree Hset) as [Hc1 Hf1].
  by apply IH.
Qed.

Lemma flag_Parse_retains w now values : ∀ ws ws',
  Forall (fun v => IsAbs v = true) values →
  flag_Parse w now values ws = Ok ws' →
  ∃ l, ws' = ws ++ l ∧ l `sublist_of` (Clean <$> values).
Proof.
  induction values as [|v values IH]; intros ws ws' Hvs; simpl.
  { intros [= <-]. exists []. by rewrite app_nil_r. }
  apply Forall_cons in Hvs as [Hv Hvs].
  destruct (watcher_Set w now ws v) as [ws1|] eqn:Hset; [|discriminate].
  intros Hparse. destruct (IH ws1 ws' Hvs Hparse) as (l & -> & Hl).
  unfold watcher_Set in Hset.
  destruct (os_Stat w now v) as [[]|]; simpl in Hset; try discriminate.
  destruct (existsb (fun p => covers p v) ws).
  - injection Hset as <-. exists l. split; [done|]. by apply sublist_cons.
  - rewrite Abs_of_absolute in Hset by done. injection Hset as <-.
    exists (Clean v :: l). split; [by rewrite <- app_assoc|]. by apply sublist_skip.
Qed.

(** * Lemmas on the enumeration *)

Lemma Node_nested_ind (P : Node → Prop) :
  P NFile →
  (∀ err ps, Forall (fun p => P p.2) ps → P (NDir err ps)) →
  ∀ n, P n.
Proof.
  intros Hfile Hdir. fix IH 1. intros [|err ps].
  - exact Hfile.
  - apply Hdir. induction ps as [|p ps IHps]; constructor; [apply IH|exact IHps].
Qed.

Section EnumerationLemmas.

Variable cfg : Config.
Variable w : World.
Variable now : Z.

Lemma watchSubdirs_listed dir ps s :
  watchSubdirs cfg w now dir (NDir None ps) s = watch_entries cfg w now dir ps s.
Proof.
  revert s. induction ps as [|[name child] ps IH]; intros s; [reflexivity|].
  simpl in *. destruct child as [|err' ps']; [apply IH|].
  destruct (wat_Add w now (Join dir name)); [|reflexivity].
  destruct (watchSubdirs cfg w now (Join dir name) (NDir err' ps') _); [apply IH|reflexivity].
Qed.

Lemma watch_entries_prune dir ps :
  Forall (fun p => ∀ d s, settle (watchSubdirs cfg w now d (prune p.2) s)
                          = settle (watchSubdirs cfg w now d p.2 s)) ps →
  ∀ s, watch_entries cfg w now dir (map (fun p => (p.1, prune p.2)) ps) s
       = watch_entries cfg w now dir ps s.
Proof.
  induction 1 as [|[name child] ps Hchild _ IH]; intros s; [reflexivity|].
  simpl in Hchild. cbn [map watch_entries fst snd].
  destruct child as [|err' ps'].
  { apply IH. }
  assert (Hk : ∃ ps0, prune (NDir err' ps') = NDir None ps0).
  { destruct err'; simpl; eauto. }
  destruct Hk as [ps0 Hk]. rewrite Hk in *.
  destruct (wat_Add w now (Join dir name)); [|reflexivity].
  cbv zeta. match goal with |- context [watchSubdirs _ _ _ ?d (NDir None ps0) ?s1] =>
    specialize (Hchild d s1);
    destruct (watchSubdirs cfg w now d (NDir None ps0) s1) as [e1 s2|s2];
    destruct (watchSubdirs cfg w now d (NDir err' ps') s1) as [e1' s2'|s2'];
    simpl in Hchild; try discriminate; injection Hchild as -> end.
  - apply IH.
  - reflexivity.
Qed.

Lemma prune_settle n : ∀ d s,
  settle (watchSubdirs cfg w now d (prune n) s)
  = settle (watchSubdirs cfg w now d n s).
Proof.
  induction n as [|err ps IH] using Node_nested_ind; intros d s; [reflexivity|].
  destruct err as [e|]; [reflexivity|].
  cbn [prune]. rewrite !watchSubdirs_listed. f_equal.
  by apply watch_entries_prune.
Qed.

Lemma prune_below_same n d s :
  watchSubdirs cfg w now d (prune_below n) s = watchSubdirs cfg w now d n s.
Proof.
  destruct n as [|[e|] ps]; [reflexivity|reflexivity|].
  cbn [prune_below]. rewrite !watchSubdirs_listed.
  apply watch_entries_prune.
  apply Forall_forall. intros p _. apply prune_settle.
Qed.

Lemma watch_entries_no_error dir ps : ∀ s e s',
  watch_entries cfg w now dir ps s ≠ EnumReturned (Some e) s'.
Proof.
  induction ps as [|[name child] ps IH]; intros s e s'; [done|].
  cbn [watch_entries]. destruct child as [|err' ps']; [apply IH|].
  destruct (wat_Add w now (Join dir name)); [|done]. cbv zeta.
  destruct (watchSubdirs cfg w now (Join dir name) (NDir err' ps') _); [apply IH|done].
Qed.

(** The call returns an error exactly when the directory itself cannot be
    listed; the state is then as it was. *)
Lemma watchSubdirs_returns dir n s :
  match watchSubdirs cfg w now dir n s with
  | EnumReturned (Some _) s' => unlistable n = true ∧ s' = s
  | EnumReturned None _ => unlistable n = false
  | EnumFatal _ => unlistable n = false
  end.
Proof.
  destruct n as [|[e|] ps]; [done|done|].
  rewrite watchSubdirs_listed.
  pose proof (watch_entries_no_error dir ps s) as Hno.
  destruct (watch_entries cfg w now dir ps s) as [[e|] s'|s']; [|done|done].
  by destruct (Hno e s').
Qed.

(** Only a refused registration ends the process. *)
Lemma watchSubdirs_fatal n : ∀ dir s s',
  watchSubdirs cfg w now dir n s = EnumFatal s' →
  ∃ path e, wat_Add w now path = Err e.
Proof.
  induction n as [|err ps IH] using Node_nested_ind; intros dir s s'; [discriminate|].
  destruct err as [e|]; [discriminate|].
  rewrite watchSubdirs_listed. revert s.
  induction IH as [|[name child] ps Hchild _ IHps]; intros s; [discriminate|].
  cbn [watch_entries]. destruct child as [|err' ps']; [apply IHps|].
  destruct (wat_Add w now (Join dir name)) as [|e] eqn:Hadd; [|by eauto].
  cbv zeta.
  destruct (watchSubdirs cfg w now (Join dir name) (NDir err' ps') _) eqn:Hrec;
    [apply IHps|].
  intros _. simpl in Hchild. by eapply Hchild.
Qed.

End EnumerationLemmas.

(** * Lemmas on start-up and on the scheduled trigger *)

Lemma flag_Parse_invalid w now values : ∀ ws,
  Exists (invalid_root w now) values → ∃ e, flag_Parse w now values ws = Err e.
Proof.
  induction values as [|v values IH]; intros ws Hex.
  { by apply Exists_nil in Hex. }
  simpl. destruct (watcher_Set w now ws v) as [ws'|e] eqn:Hset; [|by eauto].
  apply Exists_cons in Hex as [Hbad|Hex]; [|by apply IH].
  exfalso. unfold watcher_Set, invalid_root in *.
  destruct (os_Stat w now v) as [[]|]; simpl in *; done.
Qed.

Ltac not_in_list Hin :=
  repeat (let Heq := fresh in
          apply elem_of_cons in Hin as [Heq|Hin]; [discriminate Heq|]);
  try (by apply elem_of_nil in Hin).

Lemma start_watchers_spawned w now roots effs fatal :
  start_watchers w now roots = (effs, fatal) →
  ∀ period, Spawn (GoTicker period) ∉ effs.
Proof.
  revert effs fatal. induction roots as [|root roots IH]; intros effs fatal; simpl.
  { intros [= <- <-] period. apply not_elem_of_nil. }
  destruct (fsnotify_NewWatcher w now).
  2:{ intros [= <- <-] period Hin. not_in_list Hin. }
  destruct (wat_Add w now root).
  2:{ intros [= <- <-] period Hin. not_in_list Hin. }
  destruct (start_watchers w now roots) as [effs' fatal'].
  intros [= <- <-] period Hin. specialize (IH effs' fatal' eq_refl period).
  unfold printInfo in Hin. simpl in Hin.
  not_in_list Hin. done.
Qed.

Lemma elem_of_spawned g st :
  g ∈ spawned st ↔
  Spawn g ∈ match st with
            | StartupExit _ effs => effs
            | StartupPanic effs => effs
            | Serving _ _ effs => effs
            end.
Proof.
  unfold spawned. rewrite list_elem_of_omap. split.
  - intros (e & He & Hg). destruct e; try discriminate. by injection Hg as ->.
  - intros He. by exists (Spawn g).
Qed.

Lemma scan_calls_sendScanRequest cfg w now o endpoint auth :
  scan_calls (map (mkEmit now o) (sendScanRequest cfg w now endpoint auth)) = [now].
Proof.
  unfold sendScanRequest, printError.
  repeat (case_match; simpl; try reflexivity).
Qed.



(** * Lemmas on one path on its own *)

Section OnePath.

Variable cfg : Config.
Variable w : World.
Hypothesis Hadd : always_adds w.
Variable p : string.

Lemma flush_again pd t0 t :
  (t0 ≤ t)%Z →
  (flush cfg w pd t0).1 ++ (flush cfg w (flush cfg w pd t0).2 t).1 = (flush cfg w pd t).1
  ∧ (flush cfg w (flush cfg w pd t0).2 t).2 = (flush cfg w pd t).2.
Proof.
  intros Hle. unfold flush. destruct pd as [[[d|] e]|]; simpl; [|done|done].
  destruct (bool_decide (d ≤ t0)%Z) eqn:H0; simpl.
  - apply bool_decide_eq_true in H0. rewrite bool_decide_true by lia.
    simpl. by rewrite app_nil_r.
  - done.
Qed.

Lemma flush_capture t e pd :
  flush cfg w (capture t e (flush cfg w pd t).2) t
  = ([], capture t e (flush cfg w pd t).2).
Proof.
  unfold capture. destruct (qualifying e).
  - unfold flush at 1. simpl. rewrite bool_decide_false; [done|].
    unfold waitFor, Millisecond, Microsecond, Nanosecond. lia.
  - destruct (flush_again pd t t) as [H1 H2]; [lia|].
    destruct (flush cfg w (flush cfg w pd t).2 t) as [o q] eqn:Hf. simpl in *.
    subst q. f_equal.
    destruct pd as [[[d|] e0]|]; unfold flush in *; simpl in *; try by injection Hf.
    destruct (bool_decide (d ≤ t)%Z) eqn:Hd; simpl in *; [by injection Hf|].
    rewrite Hd in Hf. by injection Hf.
Qed.

Lemma advance_flush now s :
  keyed s →
  ∃ s', advance cfg w now (Running s) = Running s' ∧ keyed s'
    ∧ trace_of p (trace s')
      = trace_of p (trace s) ++ (flush cfg w (timers s !! p) now).1
    ∧ timers s' !! p = (flush cfg w (timers s !! p) now).2.
Proof.
  intros Hkey.
  destruct (advance_spec cfg w Hadd p now s Hkey)
    as (s' & Hadv & Hkey' & Hkeep & Hfired & Hnone & Htr).
  exists s'. split_and!; [done|done| |].
  - rewrite Htr. unfold due_emits, flush.
    destruct (timers s !! p) as [[[d|] e]|]; simpl; try done.
    by destruct (bool_decide (d ≤ now)%Z).
  - unfold flush. destruct (timers s !! p) as [[[d|] e]|] eqn:Hl; simpl.
    + destruct (bool_decide (d ≤ now)%Z) eqn:Hd; simpl.
      * eapply Hfired; [done|]. unfold is_due. simpl. done.
      * eapply Hkeep; [done|]. unfold is_due. simpl. done.
    + eapply Hkeep; [done|]. reflexivity.
    + by apply Hnone.
Qed.

Lemma on_msg_capture now m s :
  timers (on_msg cfg now m s) !! p
  = match event_on p m with
    | Some e => capture now e (timers s !! p)
    | None => timers s !! p
    end.
Proof.
  destruct (event_on p m) as [e|] eqn:Hev; [|by apply on_msg_other].
  destruct m as [e'|]; [|discriminate]. simpl in Hev.
  case_decide as Hname; [|discriminate]. injection Hev as ->. simpl.
  unfold capture. destruct (qualifying e) eqn:Hq.
  - rewrite on_event_timers by done. rewrite Hname, lookup_insert_eq.
    unfold entry_after. by rewrite Hname.
  - by rewrite on_event_skip.
Qed.

(** The entry of [p] and what its timer emits follow [debounce_path] on the
    events on [p]: the table holds the entry, flushed at the instant [t0] of
    the last message. *)
Lemma run_view horizon : ∀ inbox s pd base t0,
  keyed s →
  StronglySorted Z.le inbox.*1 →
  Forall (fun t => t0 ≤ t)%Z inbox.*1 →
  Forall (fun t => t ≤ horizon)%Z inbox.*1 →
  (t0 ≤ horizon)%Z →
  trace_of p (trace s) = base ++ (flush cfg w pd t0).1 →
  timers s !! p = (flush cfg w pd t0).2 →
  ∃ s', run cfg w inbox horizon (Running s) = Running s' ∧ keyed s'
    ∧ trace_of p (trace s')
      = base ++ (debounce_path cfg w pd (events_on p inbox) horizon).1
    ∧ timers s' !! p = (debounce_path cfg w pd (events_on p inbox) horizon).2.
Proof.
  induction inbox as [|[t m] inbox IH];
    intros s pd base t0 Hkey Hsort Hlo Hhi Hhor Htr Hent.
  - unfold run. cbn [dedupLoop events_on omap list_omap debounce_path].
    destruct (advance_flush horizon s Hkey) as (s' & -> & Hkey' & Htr' & Hent').
    destruct (flush_again pd t0 horizon Hhor) as [H1 H2].
    exists s'. split_and!; [done|done| |].
    + by rewrite Htr', Htr, Hent, <- app_assoc, H1.
    + by rewrite Hent', Hent, H2.
  - simpl in Hsort, Hlo, Hhi.
    apply StronglySorted_inv in Hsort as [Hsort Hle].
    apply Forall_cons in Hlo as [Hlo0 Hlo]. apply Forall_cons in Hhi as [Hhi0 Hhi].
    rewrite run_cons. unfold deliver.
    destruct (advance_flush t s Hkey) as (s1 & -> & Hkey1 & Htr1 & Hent1).
    destruct (flush_again pd t0 t Hlo0) as [H1 H2].
    rewrite Htr, Hent, <- app_assoc, H1 in Htr1. rewrite Hent, H2 in Hent1.
    assert (Hle' : Forall (fun t' => t ≤ t')%Z inbox.*1).
    { apply Forall_forall. intros x Hx. rewrite List.Forall_forall in Hle.
      apply Hle. by apply list_elem_of_In. }
    rewrite events_on_cons.
    pose proof (on_msg_capture t m s1) as Hcap. rewrite Hent1 in Hcap.
    destruct (event_on p m) as [e|] eqn:Hev.
    + destruct (IH (on_msg cfg t m s1) (capture t e (flush cfg w pd t).2)
                  (base ++ (flush cfg w pd t).1) t)
        as (s' & Hrun & Hkey' & Htr' & Hent'); try done.
      * by apply on_msg_keyed.
      * rewrite on_msg_trace_of, Htr1, flush_capture. by rewrite app_nil_r.
      * by rewrite Hcap, flush_capture.
      * exists s'. split_and!; [done|done| |done].
        cbn [debounce_path]. simpl. by rewrite Htr', <- app_assoc.
    + destruct (IH (on_msg cfg t m s1) pd base t)
        as (s' & Hrun & Hkey' & Htr' & Hent'); try done.
      * by apply on_msg_keyed.
      * by rewrite on_msg_trace_of.
      * by exists s'.
Qed.

End OnePath.

Lemma events_on_only_on p inbox : events_on p (only_on p inbox) = events_on p inbox.
Proof.
  unfold only_on. induction inbox as [|[t m] inbox IH]; [done|].
  destruct (event_on p m) as [e|] eqn:Hev.
  - rewrite filter_cons_True by (simpl; rewrite Hev; eauto).
    rewrite !events_on_cons, Hev. by rewrite IH.
  - rewrite filter_cons_False by (simpl; rewrite Hev; by intros [? ?]).
    rewrite events_on_cons, Hev. exact IH.
Qed.

Lemma only_on_times p inbox (P : Z → Prop) :
  Forall P inbox.*1 → Forall P (only_on p inbox).*1.
Proof.
  rewrite !Forall_fmap. intros H. unfold only_on.
  apply Forall_forall. intros x Hx. apply list_elem_of_filter in Hx as [_ Hx].
  rewrite Forall_forall in H. by apply H.
Qed.

Lemma only_on_sorted p inbox :
  StronglySorted Z.le inbox.*1 → StronglySorted Z.le (only_on p inbox).*1.
Proof.
  unfold only_on. induction inbox as [|[t m] inbox IH]; [done|].
  simpl. intros [Hs Hle]%StronglySorted_inv.
  destruct (decide (is_Some (event_on p m))) as [Hy|Hn].
  - rewrite filter_cons_True by done. simpl. constructor; [by apply IH|].
    apply List.Forall_forall. intros x Hx. rewrite List.Forall_forall in Hle.
    apply Hle. apply list_elem_of_In. apply list_elem_of_In in Hx.
    apply list_elem_of_fmap in Hx as (y & -> & Hy').
    apply list_elem_of_filter in Hy' as [_ Hy']. apply list_elem_of_fmap. eauto.
  - rewrite filter_cons_False by done. by apply IH.
Qed.

Lemma flush_before_due cfg w pd t :
  flush cfg w pd (before_due pd t) = ([], pd).
Proof.
  unfold flush, before_due. destruct pd as [[[d|] e]|]; try done.
  simpl. by rewrite bool_decide_false by lia.
Qed.

Lemma before_due_le pd t : (before_due pd t ≤ t)%Z.
Proof. unfold before_due. destruct pd as [[[d|] e]|]; simpl; lia. Qed.

(** [run_view] from the state as it is. *)
Lemma run_view_start cfg w (Hadd : always_adds w) p inbox horizon s :
  keyed s →
  StronglySorted Z.le inbox.*1 →
  Forall (fun t => t ≤ horizon)%Z inbox.*1 →
  ∃ s', run cfg w inbox horizon (Running s) = Running s' ∧ keyed s'
    ∧ trace_of p (trace s')
      = trace_of p (trace s)
        ++ (debounce_path cfg w (timers s !! p) (events_on p inbox) horizon).1
    ∧ timers s' !! p
      = (debounce_path cfg w (timers s !! p) (events_on p inbox) horizon).2.
Proof.
  intros Hkey Hsort Hhi.
  set (lo := match inbox.*1 with t :: _ => Z.min t horizon | [] => horizon end).
  assert (Hlo : Forall (fun t => lo ≤ t)%Z inbox.*1 ∧ (lo ≤ horizon)%Z).
  { subst lo. destruct (inbox.*1) as [|t ts] eqn:Hts; [split; [constructor|lia]|].
    apply StronglySorted_inv in Hsort as [_ Hle]. split; [|lia].
    constructor; [lia|]. apply Forall_forall. intros x Hx.
    rewrite List.Forall_forall in Hle. apply list_elem_of_In, Hle in Hx. lia. }
  destruct Hlo as [Hlo Hloh].
  pose proof (before_due_le (timers s !! p) lo) as Hb.
  apply (run_view cfg w Hadd p horizon inbox s (timers s !! p) (trace_of p (trace s))
           (before_due (timers s !! p) lo)); try done.
  - eapply Forall_impl; [exact Hlo|]. simpl. intros; lia.
  - lia.
  - by rewrite flush_before_due, app_nil_r.
  - by rewrite flush_before_due.
Qed.

Lemma scan_calls_emits_le cfg w now e :
  (length (scan_calls (processOp_emits cfg w now e)) ≤ 1)%nat.
Proof.
  unfold processOp_emits, processOp, processOp_inner, sendScanRequest,
    printVerbose, printInfo, printError.
  repeat (case_match; simplify_eq; simpl; try lia).
Qed.

Lemma flush_count cfg w pd t :
  (length (scan_calls (flush cfg w pd t).1) + pending_count (flush cfg w pd t).2
   ≤ pending_count pd)%nat.
Proof.
  unfold flush. destruct pd as [[[d|] e]|]; simpl; try lia.
  destruct (bool_decide (d ≤ t)%Z); simpl; [|lia].
  pose proof (scan_calls_emits_le cfg w d e). lia.
Qed.

Lemma debounce_path_count cfg w horizon evs : ∀ pd,
  (length (scan_calls (debounce_path cfg w pd evs horizon).1)
   + pending_count (debounce_path cfg w pd evs horizon).2
   ≤ pending_count pd + length (filter (fun te => qualifying te.2 = true) evs))%nat.
Proof.
  induction evs as [|[t e] evs IH]; intros pd.
  - simpl. pose proof (flush_count cfg w pd horizon). lia.
  - cbn [debounce_path fst snd]. rewrite scan_calls_app, length_app.
    specialize (IH (capture t e (flush cfg w pd t).2)).
    pose proof (flush_count cfg w pd t) as Hf.
    unfold capture in *. destruct (qualifying e) eqn:Hq.
    + rewrite filter_cons_True by done. simpl in *. lia.
    + rewrite filter_cons_False by (simpl; congruence). lia.
Qed.

Lemma debounce_path_spaced cfg w horizon evs : ∀ tl e0,
  write_or_remove e0 = true →
  Forall (fun te => write_or_remove te.2 = true) evs →
  spaced_out tl evs.*1 →
  (last_time tl evs.*1 + waitFor ≤ horizon)%Z →
  scan_calls (debounce_path cfg w
                (Some {| when := Some (tl + waitFor)%Z; f_event := e0 |}) evs horizon).1
  = map (fun t => t + waitFor)%Z (tl :: evs.*1)
  ∧ (debounce_path cfg w
       (Some {| when := Some (tl + waitFor)%Z; f_event := e0 |}) evs horizon).2 = None.
Proof.
  induction evs as [|[t e] evs IH]; intros tl e0 H0 Hwr Hsp Hhor.
  - unfold last_time in Hhor. simpl in *. unfold flush. simpl.
    rewrite bool_decide_true by lia. simpl.
    by rewrite processOp_emits_write_or_remove.
  - apply Forall_cons in Hwr as [He Hwr]. simpl in He, Hsp. destruct Hsp as [Hlt Hsp].
    simpl in Hhor. rewrite last_time_cons in Hhor.
    cbn [debounce_path fst snd fmap list_fmap].
    unfold flush at 1 3. simpl. rewrite bool_decide_true by lia. simpl.
    unfold capture. rewrite (write_or_remove_qualifying e He).
    destruct (IH t e He Hwr Hsp Hhor) as [IH1 IH2].
    rewrite scan_calls_app, processOp_emits_write_or_remove by done.
    rewrite IH1, IH2. done.
Qed.




Lemma advance_empty cfg w now s :
  timers s = ∅ → advance cfg w now (Running s) = Running s.
Proof.
  intros He. unfold advance, due_timers. by rewrite He, map_to_list_empty.
Qed.

(** * Lemmas on what the enumeration registers *)

Lemma accepted_prefix_app_all w now l1 l2 :
  accepted_prefix w now l1 = l1 →
  accepted_prefix w now (l1 ++ l2) = l1 ++ accepted_prefix w now l2.
Proof.
  induction l1 as [|p l1 IH]; [done|]. simpl.
  destruct (wat_Add w now p); [|done]. intros [= H]. by rewrite (IH H).
Qed.

Lemma accepted_prefix_app_stop w now l1 l2 :
  accepted_prefix w now l1 ≠ l1 →
  accepted_prefix w now (l1 ++ l2) = accepted_prefix w now l1.
Proof.
  induction l1 as [|p l1 IH]; [done|]. simpl.
  destruct (wat_Add w now p); [|done]. intros H. f_equal. apply IH. congruence.
Qed.

Ltac tidy_union :=
  rewrite ?list_to_set_nil, ?list_to_set_cons, ?list_to_set_app_L;
  apply leibniz_equiv; intros ?x; rewrite ?elem_of_union, ?elem_of_empty; tauto.

Lemma registered_app tr1 tr2 : registered (tr1 ++ tr2) = registered tr1 ++ registered tr2.
Proof. unfold registered. apply omap_app. Qed.

Section EnumerationFacts.

Variable cfg : Config.
Variable w : World.
Variable now : Z.

Lemma subdirs_cons_file dir name ps :
  subdirs dir (NDir None ((name, NFile) :: ps)) = subdirs dir (NDir None ps).
Proof. reflexivity. Qed.

Lemma subdirs_cons_dir dir name e ps' ps :
  subdirs dir (NDir None ((name, NDir e ps') :: ps))
  = Join dir name :: subdirs (Join dir name) (NDir e ps') ++ subdirs dir (NDir None ps).
Proof. reflexivity. Qed.

Lemma accepted_prefix_length paths :
  (length (accepted_prefix w now paths) ≤ length paths)%nat.
Proof.
  induction paths as [|x l IH]; simpl; [lia|].
  destruct (wat_Add w now x); simpl; lia.
Qed.

Lemma emit_watch_facts abs s :
  let s1 := emit now FromEnum (WatchAdd abs :: printVerbose cfg ["Now watching"; abs])
              (add_watch abs s) in
  registered (trace s1) = registered (trace s) ++ [abs]
  ∧ watches s1 = {[abs]} ∪ watches s ∧ timers s1 = timers s
  ∧ scan_calls (trace s1) = scan_calls (trace s).
Proof.
  unfold printVerbose. destruct (verboseEnv cfg); simpl;
    rewrite registered_app, scan_calls_app; simpl; by rewrite app_nil_r.
Qed.

Lemma watch_entries_facts dir ps :
  Forall (fun p => ∀ d s, enum_facts w now s (subdirs d p.2)
                            (watchSubdirs cfg w now d p.2 s)) ps →
  ∀ s, enum_facts w now s (subdirs dir (NDir None ps)) (watch_entries cfg w now dir ps s).
Proof.
  induction 1 as [|[name child] ps Hchild _ IH]; intros s.
  { unfold enum_facts. simpl. rewrite app_nil_r. split_and!; try done. tidy_union. }
  cbn [watch_entries]. cbn [snd] in Hchild.
  destruct child as [|err' ps'].
  { rewrite subdirs_cons_file. apply IH. }
  rewrite subdirs_cons_dir.
  set (abs := Join dir name) in *.
  set (below := subdirs abs (NDir err' ps')) in *.
  set (rest := subdirs dir (NDir None ps)) in *.
  destruct (wat_Add w now abs) as [[]|e] eqn:Hadd.
  - cbv zeta.
    destruct (emit_watch_facts abs s) as (Hr1 & Hw1 & Ht1 & Hc1).
    set (s1 := emit now FromEnum (WatchAdd abs :: printVerbose cfg ["Now watching"; abs])
                 (add_watch abs s)) in *.
    specialize (Hchild abs s1). fold below in Hchild.
    destruct (watchSubdirs cfg w now abs (NDir err' ps') s1) as [e1 s2|s2] eqn:Hrec.
    + destruct Hchild as (Hr2 & Hw2 & Ht2 & Hc2 & Hall). cbn [enum_state] in *.
      specialize (IH s2). destruct IH as (Hr3 & Hw3 & Ht3 & Hc3 & Hend).
      unfold enum_facts. cbn [accepted_prefix]. rewrite Hadd.
      rewrite (accepted_prefix_app_all _ _ _ _ Hall).
      split_and!.
      * rewrite Hr3, Hr2, Hr1, Hall, <- !app_assoc. done.
      * rewrite Hw3, Hw2, Hw1, Hall, list_to_set_cons, list_to_set_app_L. tidy_union.
      * congruence.
      * congruence.
      * destruct (watch_entries cfg w now dir ps s2); [by rewrite Hend|].
        intros [= Heq]. apply app_inv_head in Heq. done.
    + destruct Hchild as (Hr2 & Hw2 & Ht2 & Hc2 & Hstop). cbn [enum_state] in *.
      unfold enum_facts. cbn [accepted_prefix enum_state]. rewrite Hadd.
      rewrite (accepted_prefix_app_stop _ _ _ _ Hstop).
      split_and!.
      * rewrite Hr2, Hr1, <- !app_assoc. done.
      * rewrite Hw2, Hw1, list_to_set_cons. tidy_union.
      * congruence.
      * congruence.
      * intros [= Heq]. apply (f_equal length) in Heq. rewrite length_app in Heq.
        pose proof (accepted_prefix_length below) as Hle.
        assert (Hlen : length (accepted_prefix w now below) = length below) by lia.
        apply Hstop. clear -Hlen. revert Hlen.
        generalize below. intros l. induction l as [|x l IHl]; [done|]. simpl.
        destruct (wat_Add w now x); [|discriminate]. simpl. intros [= Hl].
        f_equal. by apply IHl.
  - unfold enum_facts. cbn [accepted_prefix enum_state]. rewrite Hadd.
    simpl. rewrite registered_app, scan_calls_app. simpl. rewrite !app_nil_r.
    split_and!; try done. tidy_union.
Qed.

Lemma watchSubdirs_facts n : ∀ dir s,
  enum_facts w now s (subdirs dir n) (watchSubdirs cfg w now dir n s).
Proof.
  induction n as [|err ps IH] using Node_nested_ind; intros dir s.
  - unfold enum_facts. simpl. rewrite app_nil_r. split_and!; try done. tidy_union.
  - destruct err as [e|].
    + unfold enum_facts. simpl. rewrite app_nil_r. split_and!; try done. tidy_union.
    + rewrite watchSubdirs_listed. by apply watch_entries_facts.
Qed.

End EnumerationFacts.

Lemma accepted_prefix_all w now paths :
  Forall (fun p => wat_Add w now p = Ok tt) paths → accepted_prefix w now paths = paths.
Proof.
  induction 1 as [|p paths Hp _ IH]; [done|]. simpl. by rewrite Hp, IH.
Qed.

Lemma accepted_prefix_refused w now paths :
  Exists (fun p => ∃ e, wat_Add w now p = Err e) paths →
  accepted_prefix w now paths ≠ paths.
Proof.
  induction 1 as [p paths [e He]|p paths _ IH]; simpl.
  - by rewrite He.
  - destruct (wat_Add w now p); [|done]. congruence.
Qed.

(** * Lemmas on the paths of the watch roots *)

(** The shape of a cleaned path. *)
Lemma Clean_shape path :
  path ≠ "" →
  ∃ out, cleaned_stack (IsAbs path) out
    ∧ Clean path
      = if IsAbs path then String Separator (join_sep (rev out))
        else if decide (join_sep (rev out) = "") then "."
             else join_sep (rev out).
Proof.
  intros Hne. exists (fold_left (clean_elem (IsAbs path)) (split_sep path) []). split.
  - apply fold_clean_stack; [apply split_sep_has_no_sep|]. by exists [], [].
  - unfold Clean. by rewrite decide_False.
Qed.

Lemma IsAbs_Clean path : IsAbs (Clean path) = IsAbs path.
Proof.
  destruct (decide (path = "")) as [->|Hne]; [reflexivity|].
  destruct (Clean_shape path Hne) as (out & Hout & ->).
  destruct (IsAbs path) eqn:Habs.
  - by rewrite IsAbs_String, Ascii.eqb_refl.
  - destruct (decide (join_sep (rev out) = "")); [reflexivity|].
    apply join_sep_not_abs.
    + by eapply cleaned_stack_has_no_sep.
    + by eapply cleaned_stack_nonempty.
Qed.

Lemma IsAbs_app a b : IsAbs a = true → IsAbs (a +:+ b) = true.
Proof.
  destruct a as [|c a]; [done|]. rewrite IsAbs_String. intros Hc.
  change (String c a +:+ b) with (String c (a +:+ b)). by rewrite IsAbs_String.
Qed.

Lemma Join_absolute wd v :
  IsAbs wd = true → IsAbs (Join wd v) = true ∧ Clean (Join wd v) = Join wd v.
Proof.
  intros Hwd. unfold Join. destruct (decide (wd = "")) as [->|Hne]; [done|].
  split; [|apply Clean_idempotent].
  rewrite IsAbs_Clean. by apply IsAbs_app.
Qed.

Lemma HasPrefix_refl x : HasPrefix x x = true.
Proof.
  unfold HasPrefix. induction x as [|c x IH]; [done|].
  cbn [String.prefix]. by destruct (Ascii.ascii_dec c c).
Qed.

Lemma under_refl x : under x x = true.
Proof.
  unfold under. rewrite HasPrefix_refl. simpl. by rewrite bool_decide_true.
Qed.

Lemma HasPrefix_relative x y :
  IsAbs x = true → IsAbs y = false → HasPrefix y x = false.
Proof.
  destruct x as [|c x]; [done|]. rewrite IsAbs_String. intros Hc%Ascii.eqb_eq. subst c.
  destruct y as [|c y]; [done|]. rewrite IsAbs_String. intros Hc%Ascii.eqb_neq.
  unfold HasPrefix. cbn [String.prefix].
  destruct (Ascii.ascii_dec Separator c); [congruence|done].
Qed.

Lemma covers_relative p v :
  IsAbs p = true → IsAbs v = false → covers p v = false.
Proof.
  intros Hp Hv. unfold covers, under.
  rewrite HasPrefix_relative; [done| |]; by rewrite IsAbs_Clean.
Qed.

Lemma watcher_Set_absolute w now ws v ws' :
  match os_Getwd w with Ok wd => IsAbs wd = true | Err _ => True end →
  Forall (fun p => IsAbs p = true ∧ Clean p = p) ws →
  watcher_Set w now ws v = Ok ws' →
  Forall (fun p => IsAbs p = true ∧ Clean p = p) ws'.
Proof.
  intros Hwd Hws. unfold watcher_Set.
  destruct (os_Stat w now v) as [[]|]; simpl; try discriminate.
  destruct (existsb _ ws); [by intros [= <-]|].
  unfold Abs. destruct (IsAbs v) eqn:Hv.
  - intros [= <-]. apply Forall_app. split; [done|]. repeat constructor.
    + by rewrite IsAbs_Clean.
    + apply Clean_idempotent.
  - destruct (os_Getwd w) as [wd|]; [|discriminate]. intros [= <-].
    apply Forall_app. split; [done|]. repeat constructor; by apply Join_absolute.
Qed.

(** * Lemmas on the request body and on start-up *)

Lemma collapse_spaces_tight s : ∀ in_run,
  loose_space (collapse_spaces in_run s) = false
  ∧ (in_run = true →
     match collapse_spaces in_run s with
     | String c _ => Ascii.eqb c char_space = false
     | EmptyString => True
     end).
Proof.
  induction s as [|c s IH]; intros in_run; [done|].
  cbn [collapse_spaces]. destruct (is_space c) eqn:Hc.
  - destruct in_run.
    + apply IH.
    + destruct (IH true) as [IH1 IH2]. split; [|done].
      cbn [loose_space]. rewrite IH1, orb_false_r.
      specialize (IH2 eq_refl).
      destruct (collapse_spaces true s) as [|c' s']; [done|].
      by rewrite IH2, andb_false_r.
  - destruct (IH false) as [IH1 _].
    assert (Hns : Ascii.eqb c char_space = false).
    { apply Ascii.eqb_neq. intros ->. done. }
    split; [|done]. cbn [loose_space]. by rewrite Hc, Hns, IH1.
Qed.

Lemma wrap64_small z : (0 ≤ z < 2 ^ 63)%Z → wrap64 z = z.
Proof. intros Hz. unfold wrap64. rewrite Z.mod_small; lia. Qed.


(** The goroutines of the loop of [main] over the roots. *)
Lemma start_watchers_all w now roots :
  fsnotify_NewWatcher w now = Ok tt →
  Forall (fun r => wat_Add w now r = Ok tt) roots →
  ∃ effs, start_watchers w now roots = (effs, false)
    ∧ omap (fun e => match e with Spawn g => Some g | _ => None end) effs
      = flat_map (fun r => [GoDedupLoop r; GoWatchSubdirs r]) roots
    ∧ omap (fun e => match e with WatchAdd r => Some r | _ => None end) effs = roots.
Proof.
  intros Hnew. induction 1 as [|r roots Hr _ (effs & IH & Hsp & Hwa)].
  { by exists []. }
  cbn [start_watchers]. rewrite Hnew, Hr, IH. eexists. split; [reflexivity|].
  unfold printInfo. split.
  - change (omap ?f (?a :: ?b :: ([?c] ++ ?d :: effs)))
      with (omap f [a; b; c; d] ++ omap f effs).
    by rewrite Hsp.
  - change (omap ?f (?a :: ?b :: ([?c] ++ ?d :: effs)))
      with (omap f [a; b; c; d] ++ omap f effs).
    by rewrite Hwa.
Qed.

Lemma registered_sendScanRequest cfg w now o endpoint auth :
  registered (map (mkEmit now o) (sendScanRequest cfg w now endpoint auth)) = [].
Proof.
  unfold sendScanRequest, printError.
  repeat (case_match; simpl; try reflexivity).
Qed.

Lemma scan_calls_printVerbose cfg now o msg :
  scan_calls (map (mkEmit now o) (printVerbose cfg msg)) = [].
Proof. unfold printVerbose. by destruct (verboseEnv cfg). Qed.

Lemma registered_printVerbose cfg now o msg :
  registered (map (mkEmit now o) (printVerbose cfg msg)) = [].
Proof. unfold printVerbose. by destruct (verboseEnv cfg). Qed.

(** * Scenarios

    Roots [/data], quiet window 100ms, the loop starting from [fresh]. *)

(** The file [/data/x.mp4] is created: one call of the notifier, 100ms
    later, and nothing is registered. *)
Example scenario_new_file :
  let r := run plain_cfg data_world
             [(0, MEvent (mkEvent "/data/x.mp4" Create))]%Z Second (Running fresh) in
  is_running r = true
  ∧ scan_calls (trace (state_of r)) = [100000000%Z]
  ∧ watches (state_of r) = ∅
  ∧ timers (state_of r) = ∅.
Proof. vm_compute. done. Qed.

(** The directory [/data/sub] is created: no call of the notifier, and the
    directory is watched from then on; a write below it 300ms later is
    notified 100ms after it. *)
Example scenario_new_directory :
  let r := run plain_cfg data_world
             [ (0, MEvent (mkEvent "/data/sub" Create));
               (300 * Millisecond, MEvent (mkEvent "/data/sub/y.mp4" Write)) ]%Z
             Second (Running fresh) in
  is_running r = true
  ∧ scan_calls (trace (state_of r)) = [400000000%Z]
  ∧ notified_at "/data/sub" (trace (state_of r)) = []
  ∧ watches (state_of r) = {["/data/sub"]}.
Proof. vm_compute. done. Qed.

(** A file is removed and a directory made in its place within the window:
    the timer runs [processOp] for the Remove it captured, so the notifier
    is called and the new directory is not registered. *)
Example scenario_remove_then_mkdir :
  let r := run plain_cfg data_world
             [ (0, MEvent (mkEvent "/data/sub" Remove));
               (20 * Millisecond, MEvent (mkEvent "/data/sub" Create)) ]%Z
             Second (Running fresh) in
  is_running r = true
  ∧ scan_calls (trace (state_of r)) = [120000000%Z]
  ∧ watches (state_of r) = ∅.
Proof. vm_compute. done. Qed.

(** Two writes further apart than the window: two calls. *)
Example scenario_spaced_writes :
  let r := run plain_cfg data_world
             [ (0, MEvent (mkEvent "/data/x.mp4" Write));
               (150 * Millisecond, MEvent (mkEvent "/data/x.mp4" Write)) ]%Z
             Second (Running fresh) in
  is_running r = true
  ∧ scan_calls (trace (state_of r)) = [100000000%Z; 250000000%Z].
Proof. vm_compute. done. Qed.

(** * The claims *)



(** C2, as the code has it. Nothing is classified when an event is received:
    [on_event] does not consult the outside world. Every event that passes
    the filter (Create, Write or Remove) gets an entry in the timer table,
    made for it if the path has none, and the timer of the path is set to a
    full quiet window from now; no registration and no call of the notifier
    happens at receipt. The stat and the decision are made by [processOp],
    when the timer fires. *)
Theorem receipt_updates_table cfg now e s :
  timers (on_event cfg now e s)
  = (if qualifying e then <[Name e := entry_after now e s]> (timers s) else timers s)
  ∧ watches (on_event cfg now e s) = watches s
  ∧ scan_calls (trace (on_event cfg now e s)) = scan_calls (trace s).
Proof.
  split_and!.
  - destruct (qualifying e) eqn:Hq.
    + by apply on_event_timers.
    + by rewrite on_event_skip.
  - apply on_event_watches.
  - rewrite on_event_trace, scan_calls_app.
    destruct (qualifying e); [|by rewrite app_nil_r].
    unfold printDebug. destruct (debugEnv cfg); by rewrite app_nil_r.
Qed.

(** C2, as stated, fails: the Create of the directory [/data/sub] is received
    while the path has no entry; the entry is made at once, and only when the
    timer fires does [processOp] find the directory and send nothing. *)
Lemma create_of_directory_enters_table :
  os_Stat data_world 0 "/data/sub" = Ok true
  ∧ timers fresh !! "/data/sub" = None
  ∧ timers (on_event plain_cfg 0 (mkEvent "/data/sub" Create) fresh) !! "/data/sub"
    = Some {| when := Some waitFor; f_event := mkEvent "/data/sub" Create |}
  ∧ scan_calls (processOp_emits plain_cfg data_world waitFor (mkEvent "/data/sub" Create))
    = [].
Proof. split_and!; reflexivity. Qed.

(** C3, as the code has it. When the roots are given as absolute paths, the
    retained roots are cleaned values, in the order given, and no retained
    root lies under (is, by the test of [Set], a sub-path of) a root retained
    before it: a root given after one of its ancestors is not retained. *)
Theorem roots_not_under_earlier_roots w now values ws :
  Forall (fun v => IsAbs v = true) values →
  flag_Parse w now values [] = Ok ws →
  earlier_free ws ∧ ws `sublist_of` (Clean <$> values).
Proof.
  intros Hvs Hparse. split.
  - eapply (flag_Parse_keeps w now values [] ws); [done| | |done].
    + constructor.
    + intros i j p q _ Hi. by rewrite lookup_nil in Hi.
  - destruct (flag_Parse_retains w now values [] ws Hvs Hparse) as (l & -> & Hl).
    done.
Qed.

Lemma roots_not_under_earlier_roots_witness :
  flag_Parse data_world 0 ["/data"; "/data/sub"; "/data/sub/../sub/"] [] = Ok ["/data"]
  ∧ earlier_free ["/data"]
  ∧ ["/data"] `sublist_of` (Clean <$> ["/data"; "/data/sub"; "/data/sub/../sub/"]).
Proof.
  split; [reflexivity|].
  apply (roots_not_under_earlier_roots data_world 0
           ["/data"; "/data/sub"; "/data/sub/../sub/"]).
  - repeat constructor.
  - reflexivity.
Defined.

(** C3, as stated, fails: given first, the descendant [/data/sub] is retained,
    and so is its ancestor [/data] given after it. *)
Lemma descendant_first_keeps_both :
  flag_Parse data_world 0 ["/data/sub"; "/data"] [] = Ok ["/data/sub"; "/data"]
  ∧ under "/data/sub" "/data" = true.
Proof. split; reflexivity. Qed.



(** C5. When [processOp] returns, the entry of the path is gone from the
    timer table, whatever the classification found and whatever became of the
    request (these only choose what is logged): the next event on the path
    that passes the filter is handled as a first event, its entry capturing
    that event. [processOp] does not return only when the registration of a
    new directory is refused, which ends the process. *)
Theorem callback_clears_entry cfg w now e s :
  match processOp cfg w now e s with
  | Running s' =>
      timers s' = delete (Name e) (timers s)
      ∧ timers s' !! Name e = None
      ∧ ∀ now' e', Name e' = Name e → qualifying e' = true →
          timers (on_event cfg now' e' s') !! Name e
          = Some {| when := Some (now' + waitFor)%Z; f_event := e' |}
  | Exited c s' =>
      c = 1%Z ∧ Has e Create = true
      ∧ ∃ abs err, Abs w (Name e) = Ok abs ∧ os_Stat w now abs = Ok true
                   ∧ wat_Add w now abs = Err err
  end.
Proof.
  destruct (processOp cfg w now e s) as [s'|c s'] eqn:Hp.
  - pose proof (processOp_timers cfg w now e s s' Hp) as Ht.
    assert (Hnone : timers s' !! Name e = None) by (rewrite Ht; apply lookup_delete_eq).
    split_and!; [done|done|].
    intros now' e' Hname Hq. rewrite on_event_timers by done.
    rewrite Hname, lookup_insert_eq. unfold entry_after. by rewrite Hname, Hnone.
  - unfold processOp, processOp_inner in Hp.
    destruct (Has e Create); [|discriminate].
    destruct (Abs w (Name e)) as [abs|]; [|discriminate].
    destruct (os_Stat w now abs) as [[]|] eqn:Hs; try discriminate. simpl in Hp.
    destruct (wat_Add w now abs) as [|err] eqn:Ha; [discriminate|].
    injection Hp as <- _. split_and!; [done|done|]. by exists abs, err.
Qed.



(** C7, as the code has it. A directory that cannot be listed ends the
    enumeration of its own subtree only: the enumeration goes as if that
    directory were empty. The failure is the error value of the call on
    that very directory and of no other call; the recursive call and the [go]
    statement of [main] both drop it, so it is never fatal and never logged,
    for the root as for a descendant. Only a refused registration ends the
    process. *)
Theorem list_failure_never_fatal cfg w now dir n s :
  watchSubdirs cfg w now dir (prune_below n) s = watchSubdirs cfg w now dir n s
  ∧ match watchSubdirs cfg w now dir n s with
    | EnumReturned (Some _) s' => unlistable n = true ∧ s' = s
    | EnumReturned None _ => unlistable n = false
    | EnumFatal _ => unlistable n = false ∧ ∃ path e, wat_Add w now path = Err e
    end
  ∧ match go_watchSubdirs cfg w now dir n s with
    | Running s' => if unlistable n then s' = s else True
    | Exited c _ => c = 1%Z ∧ unlistable n = false
                    ∧ ∃ path e, wat_Add w now path = Err e
    end.
Proof.
  pose proof (watchSubdirs_returns cfg w now dir n s) as Hret.
  pose proof (watchSubdirs_fatal cfg w now n dir s) as Hfatal.
  split_and!.
  - apply prune_below_same.
  - destruct (watchSubdirs cfg w now dir n s) as [[e|] s'|s']; [done|done|].
    split; [done|]. by eapply Hfatal.
  - unfold go_watchSubdirs.
    destruct (watchSubdirs cfg w now dir n s) as [[e|] s'|s'].
    + destruct Hret as [-> ->]. done.
    + by rewrite Hret.
    + split_and!; [done|done|]. by eapply Hfatal.
Qed.

(** C7, as stated, fails: the root [/data] cannot be listed; the goroutine
    that enumerates it ends with nothing logged and the process running. *)
Lemma unlistable_root_is_not_fatal :
  watchSubdirs plain_cfg data_world 0 "/data" (NDir (Some "permission denied") []) fresh
  = EnumReturned (Some "permission denied") fresh
  ∧ go_watchSubdirs plain_cfg data_world 0 "/data" (NDir (Some "permission denied") []) fresh
    = Running fresh.
Proof. split; reflexivity. Qed.

(** C8, as the code has it. With no watch root, with a root that does not
    exist or is not a directory, or with an interval that is not an
    integer, start-up ends with the exit of the process, and the ticker of
    the scheduled trigger is never started. With no root or an invalid root
    the exit comes before any watcher or loop is started; with a malformed
    interval it comes after the loop over the roots, which has started a
    watcher, its [dedupLoop] and its enumeration for every root. *)
Theorem fatal_configuration_aborts w now cfg cl :
  watcher_values cl = []
  ∨ Exists (invalid_root w now) (watcher_values cl)
  ∨ (∃ e, Atoi (scheduledScanIntervalMinsEnv cfg) = Err e) →
  (∃ code effs, main w now cfg cl = StartupExit code effs)
  ∧ (∀ period, GoTicker period ∉ spawned (main w now cfg cl))
  ∧ (watcher_values cl = [] ∨ Exists (invalid_root w now) (watcher_values cl) →
     spawned (main w now cfg cl) = [])
  ∧ (∀ roots effs e,
       flag_Parse w now (watcher_values cl) [] = Ok roots →
       positional cl = [] → roots ≠ [] →
       start_watchers w now roots = (effs, false) →
       Atoi (scheduledScanIntervalMinsEnv cfg) = Err e →
       main w now cfg cl
       = StartupExit 1 (effs ++ [LogFatal ["Error converting string to int:"; e]])).
Proof.
  intros Hbad.
  assert (Hearly : watcher_values cl = [] ∨ Exists (invalid_root w now) (watcher_values cl) →
                   (∃ code effs, main w now cfg cl = StartupExit code effs)
                   ∧ spawned (main w now cfg cl) = []).
  { intros [Hnil|Hinv]; unfold main.
    - rewrite Hnil. simpl. case_bool_decide; (split; [by eauto|reflexivity]).
    - destruct (flag_Parse_invalid w now _ [] Hinv) as [e ->].
      split; [by eauto|reflexivity]. }
  split_and!.
  - destruct Hbad as [Hnil|[Hinv|[e He]]]; [by apply Hearly; left|by apply Hearly; right|].
    unfold main, ticker_period. rewrite He.
    destruct (flag_Parse w now (watcher_values cl) []); [|by eauto].
    repeat case_bool_decide; try by eauto.
    match goal with |- context [start_watchers w now ?r] =>
      destruct (start_watchers w now r) as [effs []] end; by eauto.
  - intros period Hin. apply elem_of_spawned in Hin.
    destruct Hbad as [Hnil|[Hinv|[e He]]].
    + destruct (Hearly (or_introl Hnil)) as [_ Hs].
      assert (Hin' : GoTicker period ∈ spawned (main w now cfg cl))
        by (by apply elem_of_spawned).
      rewrite Hs in Hin'. by apply elem_of_nil in Hin'.
    + destruct (Hearly (or_intror Hinv)) as [_ Hs].
      assert (Hin' : GoTicker period ∈ spawned (main w now cfg cl))
        by (by apply elem_of_spawned).
      rewrite Hs in Hin'. by apply elem_of_nil in Hin'.
    + revert Hin. unfold main, ticker_period. rewrite He.
      destruct (flag_Parse w now (watcher_values cl) []) as [roots|];
        [|intros Hin; not_in_list Hin].
      repeat case_bool_decide; try (intros Hin; not_in_list Hin; fail).
      destruct (start_watchers w now roots) as [effs []] eqn:Hst.
      * intros Hin. by eapply start_watchers_spawned.
      * rewrite elem_of_app. intros [Hin|Hin]; [by eapply start_watchers_spawned|].
        not_in_list Hin.
  - intros Hc. by apply Hearly.
  - intros roots effs e Hparse Hpos Hne Hst He.
    unfold main, ticker_period. rewrite Hparse, Hpos, Hst, He. simpl.
    rewrite bool_decide_false; [done|]. destruct roots; [done|simpl; lia].
Qed.

Lemma fatal_configuration_aborts_witness :
  ∃ code effs, main data_world 0 plain_cfg (mkCmdLine ["/data"; "/data/x.mp4"] [])
               = StartupExit code effs.
Proof.
  apply (fatal_configuration_aborts data_world 0 plain_cfg
           (mkCmdLine ["/data"; "/data/x.mp4"] [])).
  right. left. apply Exists_cons. right. apply Exists_cons. left. reflexivity.
Defined.

(** C8, as stated, fails for the interval: [main] reads it after the loop over
    the roots, so the watcher of [/data], its [dedupLoop] and its enumeration
    are started before the process exits. *)
Lemma bad_interval_exits_after_loops_started :
  main data_world 0 bad_interval_cfg (mkCmdLine ["/data"] [])
  = StartupExit 1
      [ Spawn (GoDedupLoop "/data"); WatchAdd "/data";
        Log LvInfo ["Initial watcher started at:"; "/data"];
        Spawn (GoWatchSubdirs "/data");
        LogFatal ["Error converting string to int:"; "invalid syntax"] ]
  ∧ spawned (main data_world 0 bad_interval_cfg (mkCmdLine ["/data"] []))
    = [GoDedupLoop "/data"; GoWatchSubdirs "/data"].
Proof. split; reflexivity. Qed.




(** * Further properties *)

(** ** The debounce loop *)



(** X2. Debouncing is per path: what the timer of [p] emits and the entry [p]
    is left with are the same when everything but the events on [p] is
    taken out of the run. *)
Theorem other_paths_do_not_matter cfg w p inbox horizon s :
  always_adds w →
  keyed s →
  StronglySorted Z.le inbox.*1 →
  Forall (fun t => t ≤ horizon)%Z inbox.*1 →
  ∃ s1 s2, run cfg w inbox horizon (Running s) = Running s1
    ∧ run cfg w (only_on p inbox) horizon (Running s) = Running s2
    ∧ trace_of p (trace s1) = trace_of p (trace s2)
    ∧ timers s1 !! p = timers s2 !! p.
Proof.
  intros Hadd Hkey Hsort Hhi.
  destruct (run_view_start cfg w Hadd p inbox horizon s Hkey Hsort Hhi)
    as (s1 & Hrun1 & _ & Htr1 & Hent1).
  destruct (run_view_start cfg w Hadd p (only_on p inbox) horizon s Hkey)
    as (s2 & Hrun2 & _ & Htr2 & Hent2).
  { by apply only_on_sorted. }
  { by apply only_on_times. }
  rewrite events_on_only_on in Htr2, Hent2.
  exists s1, s2. split_and!; [done|done| |]; congruence.
Qed.

Lemma other_paths_do_not_matter_witness :
  ∃ s1 s2, run plain_cfg data_world five_writes Second (Running fresh) = Running s1
    ∧ run plain_cfg data_world (only_on "/data/x.mp4" five_writes) Second (Running fresh)
      = Running s2
    ∧ trace_of "/data/x.mp4" (trace s1) = trace_of "/data/x.mp4" (trace s2)
    ∧ timers s1 !! "/data/x.mp4" = timers s2 !! "/data/x.mp4".
Proof.
  apply (other_paths_do_not_matter plain_cfg data_world "/data/x.mp4" five_writes Second
           fresh).
  - exact data_world_always_adds.
  - exact keyed_fresh.
  - repeat constructor; vm_compute; discriminate.
  - repeat constructor; vm_compute; discriminate.
Defined.

(** X3. Write/Remove events on one path, each more than a quiet window after
    the one before, are notified one by one: the timer of the path calls the
    notifier once for each, one window after it. *)
Theorem spaced_events_notify_each cfg w p inbox horizon s t1 e1 rest :
  always_adds w →
  keyed s →
  timers s !! p = None →
  StronglySorted Z.le inbox.*1 →
  Forall (fun t => t ≤ horizon)%Z inbox.*1 →
  events_on p inbox = (t1, e1) :: rest →
  Forall (fun te => write_or_remove te.2 = true) (events_on p inbox) →
  spaced_out t1 rest.*1 →
  (last_time t1 rest.*1 + waitFor ≤ horizon)%Z →
  ∃ s', run cfg w inbox horizon (Running s) = Running s'
    ∧ timers s' !! p = None
    ∧ notified_at p (trace s')
      = notified_at p (trace s) ++ map (fun t => t + waitFor)%Z (t1 :: rest.*1).
Proof.
  intros Hadd Hkey Hidle Hsort Hhi Hev Hwr Hsp Hhor.
  destruct (run_view_start cfg w Hadd p inbox horizon s Hkey Hsort Hhi)
    as (s' & Hrun & _ & Htr & Hent).
  rewrite Hev in Hwr. apply Forall_cons in Hwr as [He1 Hwr]. simpl in He1.
  rewrite Hidle, Hev in Htr, Hent. cbn [debounce_path] in Htr, Hent.
  unfold flush at 1 3 in Htr. unfold flush at 1 in Hent.
  unfold capture in Htr, Hent.
  rewrite (write_or_remove_qualifying e1 He1) in Htr, Hent. simpl in Htr, Hent.
  destruct (debounce_path_spaced cfg w horizon rest t1 e1 He1 Hwr Hsp Hhor) as [Hcalls Hleft].
  exists s'. split_and!; [done|by rewrite Hent|].
  unfold notified_at. by rewrite Htr, scan_calls_app, Hcalls.
Qed.

Lemma spaced_events_notify_each_witness :
  ∃ s', run plain_cfg data_world three_spaced_writes Second (Running fresh) = Running s'
    ∧ timers s' !! "/data/x.mp4" = None
    ∧ notified_at "/data/x.mp4" (trace s') = [100000000; 250000000; 400000000]%Z.
Proof.
  apply (spaced_events_notify_each plain_cfg data_world "/data/x.mp4" three_spaced_writes
           Second fresh 0 (mkEvent "/data/x.mp4" Write)
           [ (150 * Millisecond, mkEvent "/data/x.mp4" Write);
             (300 * Millisecond, mkEvent "/data/x.mp4" Write) ]%Z).
  - exact data_world_always_adds.
  - exact keyed_fresh.
  - reflexivity.
  - repeat constructor; vm_compute; discriminate.
  - repeat constructor; vm_compute; discriminate.
  - reflexivity.
  - repeat constructor.
  - vm_compute. repeat split.
  - vm_compute. discriminate.
Defined.

(** X4. The timer of a path never calls the notifier more often than the
    path has events that pass the filter (and once more if the path had an
    entry at the start). *)
Theorem no_more_calls_than_events cfg w p inbox horizon s :
  always_adds w →
  keyed s →
  StronglySorted Z.le inbox.*1 →
  Forall (fun t => t ≤ horizon)%Z inbox.*1 →
  ∃ s', run cfg w inbox horizon (Running s) = Running s'
    ∧ (length (notified_at p (trace s'))
       ≤ length (notified_at p (trace s)) + pending_count (timers s !! p)
         + length (filter (fun te => qualifying te.2 = true) (events_on p inbox)))%nat.
Proof.
  intros Hadd Hkey Hsort Hhi.
  destruct (run_view_start cfg w Hadd p inbox horizon s Hkey Hsort Hhi)
    as (s' & Hrun & _ & Htr & Hent).
  exists s'. split; [done|].
  unfold notified_at. rewrite Htr, scan_calls_app, length_app.
  pose proof (debounce_path_count cfg w horizon (events_on p inbox) (timers s !! p)).
  lia.
Qed.

Lemma no_more_calls_than_events_witness :
  ∃ s', run plain_cfg data_world five_writes Second (Running fresh) = Running s'
    ∧ (length (notified_at "/data/x.mp4" (trace s')) ≤ 0 + 0 + 5)%nat.
Proof.
  apply (no_more_calls_than_events plain_cfg data_world "/data/x.mp4" five_writes Second
           fresh).
  - exact data_world_always_adds.
  - exact keyed_fresh.
  - repeat constructor; vm_compute; discriminate.
  - repeat constructor; vm_compute; discriminate.
Defined.

(** X5. Events that are neither Write, Remove nor Create (a Chmod, a Rename)
    and errors of the event source make no entry and lead to no call of the
    notifier and no registration: with an empty table, the table stays
    empty. *)
Theorem unfiltered_events_do_nothing cfg w inbox horizon s :
  timers s = ∅ →
  nothing_qualifies inbox →
  ∃ s', run cfg w inbox horizon (Running s) = Running s'
    ∧ timers s' = ∅
    ∧ watches s' = watches s
    ∧ scan_calls (trace s') = scan_calls (trace s).
Proof.
  revert s. induction inbox as [|[t m] inbox IH]; intros s Hempty Hnq.
  - exists s. unfold run. cbn [dedupLoop]. by rewrite advance_empty.
  - apply Forall_cons in Hnq as [Hm Hnq]. simpl in Hm.
    rewrite run_cons. unfold deliver. rewrite advance_empty by done.
    destruct (IH (on_msg cfg t m s)) as (s' & Hrun & He & Hw & Hc); [|done|].
    + destruct m as [e|err]; simpl; [by rewrite on_event_skip|done].
    + exists s'. split_and!; [done|done| |].
      * rewrite Hw. destruct m as [e|err]; simpl; [by rewrite on_event_skip|done].
      * rewrite Hc. destruct m as [e|err]; simpl; [by rewrite on_event_skip|].
        rewrite scan_calls_app. simpl. by rewrite app_nil_r.
Qed.

Lemma unfiltered_events_do_nothing_witness :
  ∃ s', run plain_cfg data_world
          [ (0, MEvent (mkEvent "/data/x.mp4" Chmod));
            (5 * Millisecond, MError "queue overflow");
            (10 * Millisecond, MEvent (mkEvent "/data/x.mp4" Rename)) ]%Z
          Second (Running fresh) = Running s'
    ∧ timers s' = ∅
    ∧ watches s' = watches fresh
    ∧ scan_calls (trace s') = scan_calls (trace fresh).
Proof.
  apply (unfiltered_events_do_nothing plain_cfg data_world).
  - reflexivity.
  - repeat constructor.
Defined.



(** ** The enumeration *)

(** X7. When the event source accepts them, [watchSubdirs] registers every
    directory below the root that it can reach through directories that can
    be listed, each once, parents before children, and nothing else: no
    file, nothing below a directory that cannot be listed. It leaves the
    timer table alone and never calls the notifier. *)
Theorem enumeration_registers_every_subdirectory cfg w now dir n s :
  Forall (fun p => wat_Add w now p = Ok tt) (subdirs dir n) →
  ∃ err s', watchSubdirs cfg w now dir n s = EnumReturned err s'
    ∧ registered (trace s') = registered (trace s) ++ subdirs dir n
    ∧ watches s' = list_to_set (subdirs dir n) ∪ watches s
    ∧ timers s' = timers s
    ∧ scan_calls (trace s') = scan_calls (trace s).
Proof.
  intros Hall. apply accepted_prefix_all in Hall.
  destruct (watchSubdirs_facts cfg w now n dir s) as (Hr & Hw & Ht & Hc & Hend).
  rewrite Hall in *.
  destruct (watchSubdirs cfg w now dir n s) as [err s'|s']; [|done].
  by exists err, s'.
Qed.

Lemma enumeration_registers_every_subdirectory_witness :
  ∃ err s', watchSubdirs plain_cfg data_world 0 "/data" data_tree fresh
            = EnumReturned err s'
    ∧ registered (trace s') = [] ++ ["/data/sub"; "/data/sub/deep"; "/data/locked"]
    ∧ watches s'
      = list_to_set ["/data/sub"; "/data/sub/deep"; "/data/locked"] ∪ watches fresh
    ∧ timers s' = timers fresh
    ∧ scan_calls (trace s') = scan_calls (trace fresh).
Proof.
  apply (enumeration_registers_every_subdirectory plain_cfg data_world 0 "/data" data_tree
           fresh).
  repeat constructor.
Defined.

(** X8. When the event source refuses one of these directories,
    [watchSubdirs] ends the process there ([log.Fatal]): the directories
    before it in the order of the walk are registered, it and the ones after
    it are not. *)
Theorem refused_registration_ends_enumeration cfg w now dir n s :
  Exists (fun p => ∃ e, wat_Add w now p = Err e) (subdirs dir n) →
  ∃ s', watchSubdirs cfg w now dir n s = EnumFatal s'
    ∧ go_watchSubdirs cfg w now dir n s = Exited 1 s'
    ∧ registered (trace s')
      = registered (trace s) ++ accepted_prefix w now (subdirs dir n)
    ∧ watches s' = list_to_set (accepted_prefix w now (subdirs dir n)) ∪ watches s.
Proof.
  intros Hex. apply accepted_prefix_refused in Hex.
  destruct (watchSubdirs_facts cfg w now n dir s) as (Hr & Hw & Ht & Hc & Hend).
  unfold go_watchSubdirs.
  destruct (watchSubdirs cfg w now dir n s) as [err s'|s']; [done|].
  by exists s'.
Qed.

Lemma refused_registration_ends_enumeration_witness :
  ∃ s', watchSubdirs plain_cfg full_world 0 "/data" data_tree fresh = EnumFatal s'
    ∧ go_watchSubdirs plain_cfg full_world 0 "/data" data_tree fresh = Exited 1 s'
    ∧ registered (trace s') = [] ++ ["/data/sub"]
    ∧ watches s' = list_to_set ["/data/sub"] ∪ watches fresh.
Proof.
  apply (refused_registration_ends_enumeration plain_cfg full_world 0 "/data" data_tree
           fresh).
  apply Exists_cons. right. apply Exists_cons. left.
  by exists "no space left on device".
Defined.

(** ** The watch roots *)

(** X9. Registering an absolute path a second time changes nothing: the list
    of roots is the same after [Set] is given the same value again. *)
Theorem set_twice_is_set_once w now ws v ws' :
  IsAbs v = true →
  watcher_Set w now ws v = Ok ws' →
  watcher_Set w now ws' v = Ok ws'.
Proof.
  intros Hv. unfold watcher_Set.
  destruct (os_Stat w now v) as [[]|]; simpl; try discriminate.
  destruct (existsb (fun p => covers p v) ws) eqn:Hex.
  { intros [= <-]. by rewrite Hex. }
  rewrite Abs_of_absolute by done. intros [= <-].
  rewrite existsb_app. simpl. unfold covers at 2.
  by rewrite Clean_idempotent, under_refl, orb_true_r.
Qed.

Lemma set_twice_is_set_once_witness :
  watcher_Set data_world 0 ["/data"] "/data/../data/" = Ok ["/data"].
Proof.
  apply (set_twice_is_set_once data_world 0 [] "/data/../data/" ["/data"]);
    reflexivity.
Defined.

(** X10. A relative value is never found to be covered: [Set] compares its
    cleaned form, which is relative, with roots that are absolute. When the
    value is a directory it is always added, resolved against the working
    directory, even when that very directory or an ancestor of it is a root
    already. *)
Theorem relative_value_is_always_added w now ws v wd :
  Forall (fun p => IsAbs p = true) ws →
  IsAbs v = false →
  os_Stat w now v = Ok true →
  os_Getwd w = Ok wd →
  watcher_Set w now ws v = Ok (ws ++ [Join wd v]).
Proof.
  intros Hws Hv Hstat Hwd. unfold watcher_Set. rewrite Hstat. simpl.
  assert (Hex : existsb (fun p => covers p v) ws = false).
  { apply not_true_iff_false. intros Hex. apply existsb_exists in Hex as (p & Hin & Hc).
    rewrite List.Forall_forall in Hws. by rewrite covers_relative in Hc by auto. }
  rewrite Hex. unfold Abs. by rewrite Hv, Hwd.
Qed.

Lemma relative_value_is_always_added_witness :
  watcher_Set cwd_world 0 ["/data"; "/data/sub"] "data/sub"
  = Ok (["/data"; "/data/sub"] ++ [Join "/" "data/sub"]).
Proof.
  apply (relative_value_is_always_added cwd_world 0 ["/data"; "/data/sub"] "data/sub" "/");
    try reflexivity.
  repeat constructor.
Defined.

(** X11. When the working directory is absolute, every root retained by
    [flag.Parse] is an absolute path in cleaned form, whatever form the
    values were given in. *)
Theorem retained_roots_are_absolute_and_clean w now values ws :
  match os_Getwd w with Ok wd => IsAbs wd = true | Err _ => True end →
  flag_Parse w now values [] = Ok ws →
  Forall (fun p => IsAbs p = true ∧ Clean p = p) ws.
Proof.
  intros Hwd. assert (Hnil : Forall (fun p => IsAbs p = true ∧ Clean p = p) []) by constructor.
  revert Hnil. generalize (@nil string) as ws0. revert ws.
  induction values as [|v values IH]; intros ws ws0 Hws0; simpl.
  { by intros [= <-]. }
  destruct (watcher_Set w now ws0 v) as [ws1|] eqn:Hset; [|discriminate].
  apply IH. by eapply watcher_Set_absolute.
Qed.

Lemma retained_roots_are_absolute_and_clean_witness :
  Forall (fun p => IsAbs p = true ∧ Clean p = p) ["/data"; "/data/sub"].
Proof.
  apply (retained_roots_are_absolute_and_clean cwd_world 0 ["data//"; "./data/sub/."]);
    reflexivity.
Defined.

(** ** The notifier *)

(** X12. A call of [sendScanRequest] posts at most once, to the endpoint it is
    given, with the body of [init]. The request carries the API key exactly
    when authentication is asked for, and then no request is made without a
    key. Whenever nothing is posted, or the client fails, an error line is
    logged; the call never ends the process and registers nothing. *)
Theorem scan_request_outcomes cfg w now endpoint auth :
  let effs := sendScanRequest cfg w now endpoint auth in
  (length (posts effs) ≤ 1)%nat
  ∧ (∀ ep k b, (ep, k, b) ∈ posts effs →
       ep = endpoint ∧ b = scanBody cfg ∧ http_NewRequest w endpoint = Ok tt
       ∧ k = (if auth then stashAPIKey w else None)
       ∧ (if auth then is_Some k else True))
  ∧ (posts effs = [] ∨ (∃ e, client_Do w now = Err e) → error_lines effs ≠ [])
  ∧ (posts effs ≠ [] ∧ (∃ u, client_Do w now = Ok u) → error_lines effs = [])
  ∧ existsb ends_process effs = false
  ∧ (∀ o, registered (map (mkEmit now o) effs) = []).
Proof.
  unfold sendScanRequest, printError.
  destruct (http_NewRequest w endpoint) as [[]|e1] eqn:Hreq;
    destruct auth; destruct (stashAPIKey w) as [key|];
    destruct (client_Do w now) as [[]|e2]; simpl;
    (split_and!;
     [ lia
     | intros ep k b Hin; repeat (apply elem_of_cons in Hin as [Hin|Hin]);
       try (by apply elem_of_nil in Hin); simplify_eq; by eauto
     | intros [?|[? ?]]; simplify_eq; done
     | intros [? [? ?]]; simplify_eq; done
     | done
     | done ]).
Qed.

(** ** Start-up *)

(** X13. With at least one root, no argument left over, an event source that
    takes every root, and an interval of [d] minutes with [d] from 1 to
    153722867, [main] comes up: it registers the roots in order, starts one
    [dedupLoop] and one enumeration for each, and one ticker whose period is
    exactly [d] minutes. *)
Theorem startup_starts_one_loop_per_root w now cfg cl roots d :
  flag_Parse w now (watcher_values cl) [] = Ok roots →
  positional cl = [] →
  roots ≠ [] →
  fsnotify_NewWatcher w now = Ok tt →
  Forall (fun r => wat_Add w now r = Ok tt) roots →
  Atoi (scheduledScanIntervalMinsEnv cfg) = Ok d →
  (1 ≤ d ≤ 153722867)%Z →
  ∃ effs, main w now cfg cl = Serving roots (d * Minute) effs
    ∧ spawned (main w now cfg cl)
      = flat_map (fun r => [GoDedupLoop r; GoWatchSubdirs r]) roots
        ++ [GoTicker (d * Minute)]
    ∧ omap (fun e => match e with WatchAdd r => Some r | _ => None end) effs = roots.
Proof.
  intros Hparse Hpos Hne Hnew Hadd Hatoi Hd.
  destruct (start_watchers_all w now roots Hnew Hadd) as (effs & Hst & Hsp & Hwa).
  assert (Hp : wrap64 (d * Minute) = (d * Minute)%Z).
  { apply wrap64_small. unfold Minute, Second, Millisecond, Microsecond, Nanosecond. lia. }
  assert (Hm : main w now cfg cl = Serving roots (d * Minute)
                                     (effs ++ [Spawn (GoTicker (d * Minute))])).
  { unfold main, ticker_period. rewrite Hparse, Hpos, Hst, Hatoi, Hp. simpl.
    rewrite bool_decide_false by (destruct roots; [done|simpl; lia]).
    destruct (d * Minute <=? 0)%Z eqn:Hle; [|done].
    apply Z.leb_le in Hle.
    unfold Minute, Second, Millisecond, Microsecond, Nanosecond in Hle. lia. }
  eexists. split; [exact Hm|]. rewrite Hm. unfold spawned.
  rewrite !omap_app, Hsp, Hwa. simpl. by rewrite app_nil_r.
Qed.

Lemma startup_starts_one_loop_per_root_witness :
  ∃ effs, main data_world 0 plain_cfg (mkCmdLine ["/data"] [])
          = Serving ["/data"] (30 * Minute) effs
    ∧ spawned (main data_world 0 plain_cfg (mkCmdLine ["/data"] []))
      = flat_map (fun r => [GoDedupLoop r; GoWatchSubdirs r]) ["/data"]
        ++ [GoTicker (30 * Minute)]
    ∧ omap (fun e => match e with WatchAdd r => Some r | _ => None end) effs = ["/data"].
Proof.
  apply (startup_starts_one_loop_per_root data_world 0 plain_cfg (mkCmdLine ["/data"] [])
           ["/data"] 30); try reflexivity; try done.
  repeat constructor.
Defined.



(** ** The request body *)

(** X15. Whatever the options, the body [init] builds is the template on one
    line: the newlines are gone and every run of white space is one space,
    so the text holds no tab, no newline and no two spaces in a row; each
    option reads [true] or [false] as its variable is set or not. *)
Theorem request_body_is_one_line o :
  scanBody_text o
  = "{" +:+ QUOTE +:+ "query" +:+ QUOTE +:+ ": " +:+ QUOTE
    +:+ "mutation { metadataScan (input: { rescan: " +:+ fmt_bool (scanRescan o)
    +:+ ", scanGenerateClipPreviews: " +:+ fmt_bool (scanGenerateClipPreviews o)
    +:+ ", scanGenerateCovers: " +:+ fmt_bool (scanGenerateCovers o)
    +:+ ", scanGenerateImagePreviews: " +:+ fmt_bool (scanGenerateImagePreviews o)
    +:+ ", scanGeneratePhashes: " +:+ fmt_bool (scanGeneratePhashes o)
    +:+ ", scanGeneratePreviews: " +:+ fmt_bool (scanGeneratePreviews o)
    +:+ ", scanGenerateSprites: " +:+ fmt_bool (scanGenerateSprites o)
    +:+ ", scanGenerateThumbnails: " +:+ fmt_bool (scanGenerateThumbnails o)
    +:+ " })}" +:+ QUOTE +:+ "}"
  ∧ loose_space (scanBody_text o) = false.
Proof.
  split.
  - destruct o as [[] [] [] [] [] [] [] []]; vm_compute; reflexivity.
  - apply collapse_spaces_tight.
Qed.

(** ** The callback *)

(** X16. [processOp] for a Create event whose path resolves and stats as
    something that is no directory calls the notifier once and registers
    nothing; the entry of the path is cleared. *)
Theorem create_of_file_notifies cfg w now e s abs :
  Has e Create = true →
  Abs w (Name e) = Ok abs →
  os_Stat w now abs = Ok false →
  ∃ s', processOp cfg w now e s = Running s'
    ∧ scan_calls (trace s') = scan_calls (trace s) ++ [now]
    ∧ registered (trace s') = registered (trace s)
    ∧ watches s' = watches s
    ∧ timers s' = delete (Name e) (timers s).
Proof.
  intros Hc Habs Hstat. unfold processOp, processOp_inner.
  rewrite Hc, Habs, Hstat. cbn [negb]. eexists. split; [reflexivity|].
  unfold set_timers, emit, printInfo. cbn [trace timers watches].
  rewrite !map_app, !scan_calls_app, !registered_app.
  rewrite scan_calls_sendScanRequest, registered_sendScanRequest.
  rewrite scan_calls_printVerbose, registered_printVerbose.
  by rewrite !app_nil_r.
Qed.

Lemma create_of_file_notifies_witness :
  ∃ s', processOp plain_cfg data_world waitFor (mkEvent "/data/x.mp4" Create) fresh
        = Running s'
    ∧ scan_calls (trace s') = scan_calls (trace fresh) ++ [waitFor]
    ∧ registered (trace s') = registered (trace fresh)
    ∧ watches s' = watches fresh
    ∧ timers s' = delete "/data/x.mp4" (timers fresh).
Proof.
  apply (create_of_file_notifies plain_cfg data_world waitFor
           (mkEvent "/data/x.mp4" Create) fresh "/data/x.mp4"); reflexivity.
Defined.

(** X17. For a Write or a Remove event [processOp] does not look at the file
    system or at the event source: in two worlds whose HTTP side is the same
    it does the same, whatever [os.Stat], [os.Getwd] and [Add] would answer. *)
Theorem write_or_remove_never_stats cfg w1 w2 now e s :
  write_or_remove e = true →
  http_NewRequest w1 = http_NewRequest w2 →
  stashAPIKey w1 = stashAPIKey w2 →
  client_Do w1 = client_Do w2 →
  processOp cfg w1 now e s = processOp cfg w2 now e s.
Proof.
  unfold write_or_remove. intros [_ Hc%negb_true_iff]%andb_true_iff Hreq Hkey Hdo.
  unfold processOp, processOp_inner, sendScanRequest. by rewrite Hc, Hreq, Hkey, Hdo.
Qed.

Lemma write_or_remove_never_stats_witness :
  processOp plain_cfg data_world waitFor (mkEvent "/data/x.mp4" Remove) fresh
  = processOp plain_cfg blind_world waitFor (mkEvent "/data/x.mp4" Remove) fresh.
Proof.
  apply (write_or_remove_never_stats plain_cfg data_world blind_world waitFor
           (mkEvent "/data/x.mp4" Remove) fresh); reflexivity.
Defined.
